(** * Left-leaning red-black trees (package llrb): model and verification

    A shallow embedding of [llrb.go].  Go pointers to nodes are modelled by an
    inductive tree (the node graph is a strict ownership tree: every node is
    allocated by [newNode] and linked exactly once), nil dereferences and calls
    through a nil function value by the outcome [Panic], and the recursions of
    the delete family, which descend into a subtree rebuilt by a rotation, by a
    fuel argument that the public operations supply from the node count. *)

From Stdlib Require Import ZArith List Bool Lia Arith Setoid Morphisms.
Import ListNotations.

Set Implicit Arguments.

(** ** Outcomes of a Go call *)

Inductive result (A : Type) : Type :=
| Ok (a : A)
| Panic
| OutOfFuel.

Arguments Ok {A} a.
Arguments Panic {A}.
Arguments OutOfFuel {A}.

Definition bind {A B : Type} (m : result A) (k : A -> result B) : result B :=
  match m with
  | Ok a => k a
  | Panic => Panic
  | OutOfFuel => OutOfFuel
  end.

Notation "x <- m ;; k" := (bind m (fun x => k))
  (at level 61, m at next level, right associativity).
Notation "' pat <- m ;; k" := (bind m (fun x => match x with pat => k end))
  (at level 61, pat pattern, m at next level, right associativity).

(** Go's [int] on a 64-bit platform: arithmetic wraps around. *)
Definition int_wrap (z : Z) : Z := ((z + 2 ^ 63) mod 2 ^ 64 - 2 ^ 63)%Z.

Definition _red : bool := true.
Definition _black : bool := false.

(** ** Nodes and the balance primitives *)

Section Nodes.

Variable T : Type.

(** [zero T]: the zero value of the element type. *)
Variable zero : T.

Definition CompareFunc : Type := T -> T -> Z.

(** [*node[T]]: [Nil] is the nil pointer. *)
Inductive node : Type :=
| Nil
| Node (item : T) (left right : node) (color : bool).

(** Field reads and writes through a pointer; nil panics. *)
Definition item_of (h : node) : result T :=
  match h with Nil => Panic | Node i _ _ _ => Ok i end.
Definition left_of (h : node) : result node :=
  match h with Nil => Panic | Node _ l _ _ => Ok l end.
Definition right_of (h : node) : result node :=
  match h with Nil => Panic | Node _ _ r _ => Ok r end.
Definition set_item (h : node) (i : T) : result node :=
  match h with Nil => Panic | Node _ l r c => Ok (Node i l r c) end.
Definition set_left (h : node) (l : node) : result node :=
  match h with Nil => Panic | Node i _ r c => Ok (Node i l r c) end.
Definition set_right (h : node) (r : node) : result node :=
  match h with Nil => Panic | Node i l _ c => Ok (Node i l r c) end.
Definition set_color (h : node) (c : bool) : result node :=
  match h with Nil => Panic | Node i l r _ => Ok (Node i l r c) end.

Definition is_nil (h : node) : bool :=
  match h with Nil => true | Node _ _ _ _ => false end.

Definition newNode (item : T) : node := Node item Nil Nil _red.

Definition isRed (h : node) : bool :=
  match h with
  | Nil => false
  | Node _ _ _ c => c
  end.

(** [x := h.right; h.right = x.left; x.left = h; x.color = h.color;
    h.color = _red; return x] *)
Definition rotateLeft (h : node) : result node :=
  match h with
  | Node hi hl (Node xi xl xr _) hc => Ok (Node xi (Node hi hl xl _red) xr hc)
  | _ => Panic
  end.

Definition rotateRight (h : node) : result node :=
  match h with
  | Node hi (Node xi xl xr _) hr hc => Ok (Node xi xl (Node hi xr hr _red) hc)
  | _ => Panic
  end.

(** [colorFlip] mutates [h] and both children in place; the model returns the
    updated [h]. *)
Definition colorFlip (h : node) : result node :=
  match h with
  | Node hi (Node li ll lr lc) (Node ri rl rr rc) hc =>
      Ok (Node hi (Node li ll lr (negb lc)) (Node ri rl rr (negb rc)) (negb hc))
  | _ => Panic
  end.

(** [isRed(e)] for an expression [e] that may itself panic, and Go's
    short-circuit [&&]. *)
Definition isRedR (e : result node) : result bool := h <- e ;; Ok (isRed h).
Definition notR (e : result bool) : result bool := b <- e ;; Ok (negb b).
Definition andR (a b : result bool) : result bool :=
  x <- a ;; if x then b else Ok false.

Definition fixUp (h : node) : result node :=
  c1 <- andR (isRedR (right_of h)) (notR (isRedR (left_of h))) ;;
  h <- (if c1 then rotateLeft h else Ok h) ;;
  c2 <- andR (isRedR (left_of h)) (isRedR (l <- left_of h ;; left_of l)) ;;
  h <- (if c2 then rotateRight h else Ok h) ;;
  c3 <- andR (isRedR (left_of h)) (isRedR (right_of h)) ;;
  if c3 then colorFlip h else Ok h.

Definition moveRedLeft (h : node) : result node :=
  h <- colorFlip h ;;
  c <- isRedR (r <- right_of h ;; left_of r) ;;
  if c then
    r <- right_of h ;;
    r <- rotateRight r ;;
    h <- set_right h r ;;
    h <- rotateLeft h ;;
    colorFlip h
  else Ok h.

Definition moveRedRight (h : node) : result node :=
  h <- colorFlip h ;;
  c <- isRedR (l <- left_of h ;; left_of l) ;;
  if c then
    h <- rotateRight h ;;
    colorFlip h
  else Ok h.

(** ** The recursive operations *)

(** [t.compare]: a Go function value, possibly nil; calling nil panics. *)
Variable compare : option CompareFunc.

Definition call_compare (a b : T) : result Z :=
  match compare with
  | Some f => Ok (f a b)
  | None => Panic
  end.

Fixpoint insert (h : node) (item : T) : result (node * T * bool) :=
  match h with
  | Nil => Ok (newNode item, zero, false)
  | Node hi hl hr hc =>
      cmp <- call_compare item hi ;;
      if (cmp =? 0)%Z then
        h <- fixUp (Node item hl hr hc) ;;
        Ok (h, hi, true)
      else if (cmp <? 0)%Z then
        '(l, prev, existed) <- insert hl item ;;
        h <- fixUp (Node hi l hr hc) ;;
        Ok (h, prev, existed)
      else
        '(r, prev, existed) <- insert hr item ;;
        h <- fixUp (Node hi hl r hc) ;;
        Ok (h, prev, existed)
  end.

Fixpoint deleteMin (fuel : nat) (h : node) : result (node * T * bool) :=
  match fuel with
  | O => OutOfFuel
  | S fuel =>
      match h with
      | Nil => Ok (Nil, zero, false)
      | Node hi Nil _ _ => Ok (Nil, hi, true)
      | Node _ (Node _ hll _ _ as hl) _ _ =>
          h <- (if negb (isRed hl) && negb (isRed hll)
                then moveRedLeft h else Ok h) ;;
          l <- left_of h ;;
          '(l, deleted, ok) <- deleteMin fuel l ;;
          h <- set_left h l ;;
          h <- fixUp h ;;
          Ok (h, deleted, ok)
      end
  end.

Fixpoint deleteMax (fuel : nat) (h : node) : result (node * T * bool) :=
  match fuel with
  | O => OutOfFuel
  | S fuel =>
      match h with
      | Nil => Ok (Nil, zero, false)
      | Node _ hl _ _ =>
          h <- (if isRed hl then rotateRight h else Ok h) ;;
          r <- right_of h ;;
          match r with
          | Nil => hi <- item_of h ;; Ok (Nil, hi, true)
          | Node _ rl _ _ =>
              h <- (if negb (isRed r) && negb (isRed rl)
                    then moveRedRight h else Ok h) ;;
              r <- right_of h ;;
              '(r, deleted, ok) <- deleteMax fuel r ;;
              h <- set_right h r ;;
              h <- fixUp h ;;
              Ok (h, deleted, ok)
          end
      end
  end.

Fixpoint delete (fuel : nat) (h : node) (item : T) : result (node * T * bool) :=
  match fuel with
  | O => OutOfFuel
  | S fuel =>
      match h with
      | Nil => Ok (Nil, zero, false)
      | Node hi hl _ _ =>
          cmp <- call_compare item hi ;;
          if (cmp <? 0)%Z then
            match hl with
            | Nil => Ok (h, zero, false)
            | Node _ hll _ _ =>
                h <- (if negb (isRed hl) && negb (isRed hll)
                      then moveRedLeft h else Ok h) ;;
                l <- left_of h ;;
                '(l, deleted, ok) <- delete fuel l item ;;
                h <- set_left h l ;;
                h <- fixUp h ;;
                Ok (h, deleted, ok)
            end
          else
            h <- (if isRed hl then rotateRight h else Ok h) ;;
            hi <- item_of h ;;
            cmp <- call_compare item hi ;;
            r <- right_of h ;;
            if (cmp =? 0)%Z && is_nil r then Ok (Nil, hi, true)
            else
              c <- (if is_nil r then Ok false
                    else andR (Ok (negb (isRed r)))
                              (notR (isRedR (left_of r)))) ;;
              h <- (if c then moveRedRight h else Ok h) ;;
              hi <- item_of h ;;
              cmp <- call_compare item hi ;;
              if (cmp =? 0)%Z then
                r <- right_of h ;;
                '(r, rightMin, _) <- deleteMin fuel r ;;
                h <- set_right h r ;;
                h <- set_item h rightMin ;;
                h <- fixUp h ;;
                Ok (h, hi, true)
              else
                r <- right_of h ;;
                '(r, deleted, ok) <- delete fuel r item ;;
                h <- set_right h r ;;
                h <- fixUp h ;;
                Ok (h, deleted, ok)
      end
  end.

(** [Get]'s loop walks down from the root; the recursion is on the node. *)
Fixpoint get (x : node) (item : T) : result (T * bool) :=
  match x with
  | Nil => Ok (zero, false)
  | Node xi xl xr _ =>
      cmp <- call_compare item xi ;;
      if (cmp =? 0)%Z then Ok (xi, true)
      else if (cmp <? 0)%Z then get xl item
      else get xr item
  end.

(** ** The range iterator *)

Record nullItem : Type := { ni_item : T; valid : bool }.

Definition no_bound : nullItem := {| ni_item := zero; valid := false |}.
Definition bound (x : T) : nullItem := {| ni_item := x; valid := true |}.

(** The callback is a Go closure: it may read and update state [St] of the
    caller and answers whether the walk goes on. *)
Definition IterFunc (St : Type) : Type := T -> St -> bool * St.

Fixpoint iterate (St : Type) (h : node) (desc : bool) (start end_ : nullItem)
    (iter : IterFunc St) (s : St) : result (bool * St) :=
  match h with
  | Nil => Ok (true, s)
  | Node hi hl hr _ =>
      if negb desc then
        c1 <- andR (Ok (valid end_))
                   (c <- call_compare hi (ni_item end_) ;; Ok (c >=? 0)%Z) ;;
        if c1 then iterate hl desc start end_ iter s else
        c2 <- andR (Ok (valid start))
                   (c <- call_compare hi (ni_item start) ;; Ok (c <? 0)%Z) ;;
        if c2 then iterate hr desc start end_ iter s else
        '(go, s) <- iterate hl desc start end_ iter s ;;
        if negb go then Ok (false, s) else
        let '(go, s) := iter hi s in
        if negb go then Ok (false, s) else
        iterate hr desc start end_ iter s
      else
        c1 <- andR (Ok (valid end_))
                   (c <- call_compare hi (ni_item end_) ;; Ok (c <=? 0)%Z) ;;
        if c1 then iterate hr desc start end_ iter s else
        c2 <- andR (Ok (valid start))
                   (c <- call_compare hi (ni_item start) ;; Ok (c >? 0)%Z) ;;
        if c2 then iterate hl desc start end_ iter s else
        '(go, s) <- iterate hr desc start end_ iter s ;;
        if negb go then Ok (false, s) else
        let '(go, s) := iter hi s in
        if negb go then Ok (false, s) else
        iterate hl desc start end_ iter s
  end.

(** Node count: the fuel the public operations hand to the delete family. *)
Fixpoint size (h : node) : nat :=
  match h with
  | Nil => O
  | Node _ l r _ => S (size l + size r)
  end.

End Nodes.

Arguments Nil {T}.

(** ** The tree and its public operations *)

Record LLRBTree (T : Type) : Type := {
  root : node T;
  compare : option (CompareFunc T);
  len : Z
}.

Section Tree.

Variable T : Type.
Variable zero : T.

Let tree := LLRBTree T.

(** [NewLLRBTree] stores the comparator it is given and checks nothing. *)
Definition NewLLRBTree (cmp : option (CompareFunc T)) : result tree :=
  Ok {| root := Nil; compare := cmp; len := 0 |}.

(** Fuel for the delete family: one unit per node and one for the nil at the
    bottom ([fuel_enough] below shows that it never runs out). *)
Definition fuel_of (t : tree) : nat := S (size (root t)).

Definition ReplaceOrInsert (t : tree) (item : T) : result (tree * T * bool) :=
  '(r, prev, existed) <- insert zero (compare t) (root t) item ;;
  r <- set_color r _black ;;
  let n := if negb existed then int_wrap (len t + 1) else len t in
  Ok ({| root := r; compare := compare t; len := n |}, prev, existed).

Definition Get (t : tree) (item : T) : result (T * bool) :=
  get zero (compare t) (root t) item.

Definition Has (t : tree) (item : T) : result bool :=
  '(_, ok) <- Get t item ;; Ok ok.

(** The common tail of the three deletions: blacken a non-nil root, count. *)
Definition finish_delete (t : tree) (r : node T) (deleted : T) (ok : bool)
  : tree * T * bool :=
  let r := match r with
           | Nil => Nil
           | Node i l r' _ => Node i l r' _black
           end in
  let n := if ok then int_wrap (len t - 1) else len t in
  ({| root := r; compare := compare t; len := n |}, deleted, ok).

Definition DeleteMin (t : tree) : result (tree * T * bool) :=
  '(r, deleted, ok) <- deleteMin zero (fuel_of t) (root t) ;;
  Ok (finish_delete t r deleted ok).

Definition DeleteMax (t : tree) : result (tree * T * bool) :=
  '(r, deleted, ok) <- deleteMax zero (fuel_of t) (root t) ;;
  Ok (finish_delete t r deleted ok).

Definition Delete (t : tree) (item : T) : result (tree * T * bool) :=
  '(r, deleted, ok) <- delete zero (compare t) (fuel_of t) (root t) item ;;
  Ok (finish_delete t r deleted ok).

Definition Clear (t : tree) : tree :=
  {| root := Nil; compare := compare t; len := 0 |}.

Definition Len (t : tree) : Z := len t.

Section Iteration.

Variable St : Type.

(** The traversals return nothing; the model returns the caller's state after
    the last callback. *)
Definition walk (t : tree) (desc : bool) (start end_ : nullItem T)
    (iter : IterFunc T St) (s : St) : result St :=
  '(_, s) <- iterate (compare t) (root t) desc start end_ iter s ;; Ok s.

Definition AscendRange (t : tree) (greaterOrEqual lessThan : T) :=
  walk t false (bound greaterOrEqual) (bound lessThan).
Definition AscendLessThan (t : tree) (pivot : T) :=
  walk t false (no_bound zero) (bound pivot).
Definition AscendGreaterOrEqual (t : tree) (pivot : T) :=
  walk t false (bound pivot) (no_bound zero).
Definition Ascend (t : tree) :=
  walk t false (no_bound zero) (no_bound zero).
Definition DescendRange (t : tree) (lessOrEqual greaterThan : T) :=
  walk t true (bound lessOrEqual) (bound greaterThan).
Definition DescendLessOrEqual (t : tree) (pivot : T) :=
  walk t true (bound pivot) (no_bound zero).
Definition DescendGreaterThan (t : tree) (pivot : T) :=
  walk t true (no_bound zero) (bound pivot).
Definition Descend (t : tree) :=
  walk t true (no_bound zero) (no_bound zero).

End Iteration.

(** A callback that records every element it is called on and stops when
    [p] says so; [p] sees the elements recorded before. *)
Definition logging (p : list T -> T -> bool) : IterFunc T (list T) :=
  fun x log => (p log x, log ++ [x]).

(** Sequences of public mutating operations. *)
Inductive op : Type :=
| OpInsert (item : T)
| OpDelete (item : T)
| OpDeleteMin
| OpDeleteMax
| OpClear.

Definition apply_op (t : tree) (o : op) : result tree :=
  match o with
  | OpInsert x => '(t, _, _) <- ReplaceOrInsert t x ;; Ok t
  | OpDelete x => '(t, _, _) <- Delete t x ;; Ok t
  | OpDeleteMin => '(t, _, _) <- DeleteMin t ;; Ok t
  | OpDeleteMax => '(t, _, _) <- DeleteMax t ;; Ok t
  | OpClear => Ok (Clear t)
  end.

Fixpoint run (t : tree) (ops : list op) : result tree :=
  match ops with
  | [] => Ok t
  | o :: ops => t <- apply_op t o ;; run t ops
  end.

End Tree.

Arguments OpDeleteMin {T}.
Arguments OpDeleteMax {T}.
Arguments OpClear {T}.

(** [cmp.Compare] at an integer type, the comparator of [NewSet]. *)
Definition cmp_Compare (a b : Z) : Z :=
  if (a <? b)%Z then (-1)%Z else if (a >? b)%Z then 1%Z else 0%Z.

(** ** Specification vocabulary *)

Section Spec.

Variable T : Type.

(** The stored elements, left to right. *)
Fixpoint elements (h : node T) : list T :=
  match h with
  | Nil => []
  | Node x l r _ => elements l ++ x :: elements r
  end.

(** The 2-3 LLRB shape with black height [n]: no right child is red, a red
    node has no red left child, and both subtrees have the same black
    height. *)
Fixpoint rb (n : nat) (h : node T) : Prop :=
  match h with
  | Nil => n = O
  | Node _ l r c =>
      isRed r = false /\
      if c then isRed l = false /\ rb n l /\ rb n r
      else match n with
           | O => False
           | S m => rb m l /\ rb m r
           end
  end.

(** The same shape, except that a red root may have a red left child: what
    an insertion hands to the caller's [fixUp]. *)
Definition arb (n : nat) (h : node T) : Prop :=
  match h with
  | Nil => False
  | Node _ l r c =>
      isRed r = false /\
      if c then rb n l /\ rb n r
      else match n with
           | O => False
           | S m => rb m l /\ rb m r
           end
  end.

(** The invariants as the specification words them. *)
Fixpoint no_red_right_of_red (h : node T) : bool :=
  match h with
  | Nil => true
  | Node _ l r c =>
      negb (c && isRed r) && no_red_right_of_red l && no_red_right_of_red r
  end.

Fixpoint no_red_left_left_of_red (h : node T) : bool :=
  match h with
  | Nil => true
  | Node _ l r c =>
      negb (c && isRed l &&
            match l with Nil => false | Node _ ll _ _ => isRed ll end)
      && no_red_left_left_of_red l && no_red_left_left_of_red r
  end.

(** Black nodes met on each path from [h] down to an absent child. *)
Fixpoint black_depths (h : node T) : list nat :=
  match h with
  | Nil => [O]
  | Node _ l r c =>
      map (fun d => if c then d else S d) (black_depths l ++ black_depths r)
  end.

Definition equal_black_depth (h : node T) : Prop :=
  forall a b, In a (black_depths h) -> In b (black_depths h) -> a = b.

Definition llrb_invariants (t : LLRBTree T) : Prop :=
  no_red_right_of_red (root t) = true /\
  no_red_left_left_of_red (root t) = true /\
  equal_black_depth (root t) /\
  isRed (root t) = false.

(** The strong form the proofs carry along. *)
Definition well_formed (t : LLRBTree T) : Prop :=
  isRed (root t) = false /\ exists n, rb n (root t).

Variable cmp : CompareFunc T.

(** The comparator is a three-way comparison of a total order (up to the
    elements it identifies). *)
Record total_order : Prop := {
  cmp_sym : forall a b, Z.sgn (cmp b a) = (- Z.sgn (cmp a b))%Z;
  cmp_trans : forall a b c, (cmp a b < 0)%Z -> (cmp b c < 0)%Z ->
                            (cmp a c < 0)%Z;
  cmp_eq_l : forall a b c, cmp a b = 0%Z -> Z.sgn (cmp a c) = Z.sgn (cmp b c)
}.

(** Binary search tree ordering, node by node. *)
Fixpoint bst (h : node T) : Prop :=
  match h with
  | Nil => True
  | Node x l r _ =>
      Forall (fun y => (cmp y x < 0)%Z) (elements l) /\
      Forall (fun y => (cmp x y < 0)%Z) (elements r) /\
      bst l /\ bst r
  end.

(** [item] is not below the root of [h]: the descent at [h] goes right. *)
Definition ge_root (item : T) (h : node T) : Prop :=
  match h with
  | Nil => True
  | Node i _ _ _ => (cmp item i <? 0)%Z = false
  end.

(** Strictly increasing lists. *)
Fixpoint increasing (l : list T) : Prop :=
  match l with
  | [] => True
  | x :: l' => Forall (fun y => (cmp x y < 0)%Z) l' /\ increasing l'
  end.

End Spec.

(** Preconditions of the deleting descents. *)
Section DeletePre.

Variable T : Type.

(** [h] is red or has a red left child: a descent may remove an element
    below [h] without changing its black height. *)
Definition redish (h : node T) : Prop :=
  match h with
  | Nil => False
  | Node _ l _ c => c = true \/ isRed l = true
  end.

(** A black node whose only red child is the right one: what
    [moveRedRight] leaves on the right after its rotation. *)
Definition right_leaning (n : nat) (h : node T) : Prop :=
  match h with
  | Node _ l r false =>
      isRed l = false /\ isRed r = true /\
      match n with
      | O => False
      | S m => rb m l /\ rb m r
      end
  | _ => False
  end.

Definition blacken (h : node T) : node T :=
  match h with
  | Nil => Nil
  | Node i l r _ => Node i l r _black
  end.

End DeletePre.

(** ** Vocabulary of the operations' contracts *)

Section Vocabulary.

Variable T : Type.
Variable cmp : CompareFunc T.

(** [l'] is [l] with one occurrence of [p] overwritten by [x]. *)
Definition replaced (p x : T) (l l' : list T) : Prop :=
  exists l1 l2, l = l1 ++ p :: l2 /\ l' = l1 ++ x :: l2.

(** [l'] is [l] with [x] put at its place in the order. *)
Definition inserted (x : T) (l l' : list T) : Prop :=
  exists l1 l2, l = l1 ++ l2 /\ l' = l1 ++ x :: l2 /\
    Forall (fun y => (cmp y x < 0)%Z) l1 /\
    Forall (fun y => (cmp x y < 0)%Z) l2.

(** [l'] is [l] without one occurrence of [d]. *)
Definition removed (d : T) (l l' : list T) : Prop :=
  exists l1 l2, l = l1 ++ d :: l2 /\ l' = l1 ++ l2.

Definition absent (x : T) (l : list T) : Prop :=
  Forall (fun y => cmp x y <> 0%Z) l.

(** One representative per class of elements the comparator identifies. *)
Fixpoint distinct (l : list T) : list T :=
  match l with
  | [] => []
  | x :: l' => x :: filter (fun y => negb (cmp x y =? 0)%Z) (distinct l')
  end.

(** Some stored element compares equal to [x]. *)
Definition present (x : T) (l : list T) : Prop :=
  exists y, In y l /\ cmp x y = 0%Z.

(** What every sequence of public operations maintains. *)
Definition tree_inv (t : LLRBTree T) : Prop :=
  compare t = Some cmp /\ well_formed t /\ bst cmp (root t) /\
  len t = int_wrap (Z.of_nat (size (root t))).

(** Calling [iter] on the elements of [l] in turn until it answers false. *)
Fixpoint run_iter (St : Type) (iter : IterFunc T St) (l : list T) (s : St)
  : bool * St :=
  match l with
  | [] => (true, s)
  | x :: l' =>
      let '(go, s') := iter x s in
      if go then run_iter iter l' s' else (false, s')
  end.

(** The elements a logging callback is called on: [l] up to and including the
    first one on which [p] answers false. *)
Fixpoint calls (p : list T -> T -> bool) (log : list T) (l : list T) : list T :=
  match l with
  | [] => []
  | x :: l' => x :: (if p log x then calls p (log ++ [x]) l' else [])
  end.

(** Bounds of an ascending walk: [start <= y < end_]. *)
Definition in_range_asc (start end_ : nullItem T) (y : T) : bool :=
  (negb (valid start) || (cmp y (ni_item start) >=? 0)%Z) &&
  (negb (valid end_) || (cmp y (ni_item end_) <? 0)%Z).

(** Bounds of a descending walk: [end_ < y <= start]. *)
Definition in_range_desc (start end_ : nullItem T) (y : T) : bool :=
  (negb (valid start) || (cmp y (ni_item start) <=? 0)%Z) &&
  (negb (valid end_) || (cmp y (ni_item end_) >? 0)%Z).

(** The nodes the walk reaches when the callback never stops it. *)
Fixpoint visit (h : node T) (desc : bool) (start end_ : nullItem T) : list T :=
  match h with
  | Nil => []
  | Node hi hl hr _ =>
      if negb desc then
        if valid end_ && (cmp hi (ni_item end_) >=? 0)%Z
        then visit hl desc start end_
        else if valid start && (cmp hi (ni_item start) <? 0)%Z
        then visit hr desc start end_
        else visit hl desc start end_ ++ hi :: visit hr desc start end_
      else
        if valid end_ && (cmp hi (ni_item end_) <=? 0)%Z
        then visit hr desc start end_
        else if valid start && (cmp hi (ni_item start) >? 0)%Z
        then visit hl desc start end_
        else visit hr desc start end_ ++ hi :: visit hl desc start end_
  end.

End Vocabulary.

(** ** Concrete trees over [int] *)

(** The tree of [ExampleLLRBTree]: 5, 2, 7, 1, 4 inserted in this order. *)
Definition example_tree : LLRBTree Z :=
  {| root := Node 5%Z
               (Node 2%Z (Node 1%Z Nil Nil _black) (Node 4%Z Nil Nil _black) _red)
               (Node 7%Z Nil Nil _black) _black;
     compare := Some cmp_Compare;
     len := 5 |}.

(** 10, 20, 40, 30 inserted in this order: a 2-node on the left of the root
    and a 3-node on its right. *)
Definition lopsided_tree : LLRBTree Z :=
  {| root := Node 20%Z
               (Node 10%Z Nil Nil _black)
               (Node 40%Z (Node 30%Z Nil Nil _red) Nil _black) _black;
     compare := Some cmp_Compare;
     len := 4 |}.

(** [lopsided_tree] after [Delete(5)]. *)
Definition lopsided_tree_after : LLRBTree Z :=
  {| root := Node 30%Z
               (Node 20%Z (Node 10%Z Nil Nil _red) Nil _black)
               (Node 40%Z Nil Nil _black) _black;
     compare := Some cmp_Compare;
     len := 4 |}.

(** ** The test helper [maxDepth] and the set adapter *)

Section Adapters.

Variable T : Type.
Variable zero : T.

(** [maxDepth] of the tree tests: the number of nodes on the longest path. *)
Fixpoint maxDepth (h : node T) : nat :=
  match h with
  | Nil => O
  | Node _ l r _ => 1 + Nat.max (maxDepth l) (maxDepth r)
  end.

(** [cmp.Compare] at the element type of the set. *)
Variable Compare : CompareFunc T.

Record LLRBSet : Type := { tr : LLRBTree T }.

Definition NewSet : result LLRBSet :=
  t <- NewLLRBTree (Some Compare) ;; Ok {| tr := t |}.

Definition LLRBSet_Insert (s : LLRBSet) (item : T) : result (LLRBSet * bool) :=
  '(t, _, existed) <- ReplaceOrInsert zero (tr s) item ;;
  Ok ({| tr := t |}, existed).

Definition LLRBSet_Delete (s : LLRBSet) (item : T) : result (LLRBSet * bool) :=
  '(t, _, existed) <- Delete zero (tr s) item ;;
  Ok ({| tr := t |}, existed).

Definition LLRBSet_Range (St : Type) (s : LLRBSet) (iter : IterFunc T St)
    (st : St) : result St :=
  Ascend zero (tr s) iter st.

Definition LLRBSet_Has (s : LLRBSet) (item : T) : result bool :=
  Has zero (tr s) item.

Definition LLRBSet_Len (s : LLRBSet) : Z := Len (tr s).

Definition LLRBSet_Clear (s : LLRBSet) : LLRBSet := {| tr := Clear (tr s) |}.

End Adapters.

(** * Proofs *)

(** ** Proof automation for case analyses on tree shapes *)

Ltac tree_step :=
  match goal with
  | H : _ /\ _ |- _ => destruct H
  | H : False |- _ => destruct H
  | H : exists _, _ |- _ => destruct H
  | H : _ \/ _ |- _ => destruct H
  | H : true = false |- _ => discriminate H
  | H : false = true |- _ => discriminate H
  | H : S _ = O |- _ => discriminate H
  | H : O = S _ |- _ => discriminate H
  | H : ?a = ?a -> _ |- _ => specialize (H eq_refl)
  | H : true = false -> _ |- _ => clear H
  | H : false = true -> _ |- _ => clear H
  | H : arb _ ?t |- _ => is_var t; destruct t
  | H : match ?n with O => _ | S _ => _ end |- _ => is_var n; destruct n
  | H : context [if ?c then _ else _] |- _ => is_var c; destruct c
  | |- context [isRed ?t] => is_var t; destruct t
  | |- context [if ?c then _ else _] => is_var c; destruct c
  | |- context [match ?t with Nil => _ | Node _ _ _ _ => _ end] => is_var t; destruct t
  end.

Ltac tree_crush := repeat (cbn in *; unfold _red, _black in *; subst; try tree_step).

Ltac bh_of X :=
  lazymatch X with
  | Nil => constr:(O)
  | Node _ ?a _ true => bh_of a
  | Node _ ?a _ false => let k := bh_of a in constr:(S k)
  | _ => lazymatch goal with H : rb ?k X |- _ => constr:(k) end
  end.

Ltac finish := cbn in *; intuition (auto; try congruence; try lia).

Ltac give_height :=
  lazymatch goal with
  | |- exists m, rb m (blacken ?X) =>
      lazymatch X with
      | Nil => exists O
      | Node _ ?a _ _ => let k := bh_of a in exists (S k)
      end
  end.

Ltac finish_root :=
  tree_crush; do 3 eexists; (split; [reflexivity|]); give_height; solve [finish].

(** ** The comparator as an order *)

Section Order.

Variable T : Type.
Variable cmp : CompareFunc T.
Hypothesis Hord : total_order cmp.

Lemma eq_lt_contra x a b :
  (cmp x a =? 0)%Z = true -> (cmp x b <? 0)%Z = false -> (cmp a b < 0)%Z -> False.
Proof.
  intros E1 E2 Hab. apply Z.eqb_eq in E1. apply Z.ltb_ge in E2.
  pose proof (cmp_eq_l Hord x a b E1). lia.
Qed.

Lemma lt_trans a b c : (cmp a b < 0)%Z -> (cmp b c < 0)%Z -> (cmp a c < 0)%Z.
Proof. exact (cmp_trans Hord a b c). Qed.

Lemma Forall_lt_up (l : list T) a b :
  Forall (fun y => (cmp y a < 0)%Z) l -> (cmp a b < 0)%Z ->
  Forall (fun y => (cmp y b < 0)%Z) l.
Proof.
  intros H Hab. eapply Forall_impl; [|exact H]. cbn. intros y Hy.
  exact (cmp_trans Hord _ _ _ Hy Hab).
Qed.

Lemma Forall_gt_down (l : list T) a b :
  Forall (fun y => (cmp b y < 0)%Z) l -> (cmp a b < 0)%Z ->
  Forall (fun y => (cmp a y < 0)%Z) l.
Proof.
  intros H Hab. eapply Forall_impl; [|exact H]. cbn. intros y Hy.
  exact (cmp_trans Hord _ _ _ Hab Hy).
Qed.

Lemma bst_Node x (l r : node T) c :
  bst cmp (Node x l r c) =
  (Forall (fun y => (cmp y x < 0)%Z) (elements l) /\
   Forall (fun y => (cmp x y < 0)%Z) (elements r) /\
   bst cmp l /\ bst cmp r).
Proof. reflexivity. Qed.

Lemma elements_Node x (l r : node T) c :
  elements (Node x l r c) = elements l ++ x :: elements r.
Proof. reflexivity. Qed.

End Order.

(** Ordering side conditions, from the [bst] hypotheses in the context. *)

Ltac bst_norm :=
  rewrite ?bst_Node, ?elements_Node, ?Forall_app, ?Forall_cons_iff in *;
  repeat match goal with H : _ /\ _ |- _ => destruct H end.

Ltac bst_solve :=
  bst_norm; repeat split;
  eauto 4 using Forall_lt_up, Forall_gt_down, lt_trans.

Ltac order_contra :=
  match goal with
  | E1 : (?cmp ?x ?a =? 0)%Z = true, E2 : (?cmp ?x ?b <? 0)%Z = false |- _ =>
      exfalso; eapply eq_lt_contra; [eassumption|exact E1|exact E2|];
      solve [bst_solve]
  end.

(** ** Shape: colours and black height *)

Section Shape.

Variable T : Type.
Variable zero : T.
Variable cmp : CompareFunc T.

Lemma fixUp_rb (h : node T) n :
  rb n h -> h <> Nil -> fixUp h = Ok h.
Proof.
  intros H Hn. destruct h; [congruence|].
  unfold fixUp. tree_crush; auto.
Qed.

Lemma insert_shape (x : T) (h : node T) : forall n,
  rb n h ->
  exists h' p e, insert zero (Some cmp) h x = Ok (h', p, e) /\
                 arb n h' /\ (isRed h = false -> rb n h').
Proof.
  induction h as [|i l IHl r IHr c]; intros n H.
  - cbn. do 3 eexists. split; [reflexivity|]. cbn in *. subst. auto.
  - cbn [insert call_compare bind].
    destruct (cmp x i =? 0)%Z.
    + rewrite (@fixUp_rb (Node x l r c) n) by (cbn in *; tauto || congruence).
      cbn. do 3 eexists. split; [reflexivity|]. cbn in *. destruct c; tauto.
    + assert (exists m, rb m l /\ rb m r /\ (if c then m = n else S m = n)) as (m & Hl & Hr & Hmn).
      { cbn in H. destruct c; [exists n; tauto|]. destruct n; [tauto|]. exists n; tauto. }
      destruct (cmp x i <? 0)%Z.
      * destruct (IHl m Hl) as (l' & p & e & -> & Ha & Hb).
        cbn [bind]. unfold fixUp.
        (tree_crush; do 3 eexists; (split; [reflexivity|]); cbn; intuition (auto; try congruence)).
      * destruct (IHr m Hr) as (l' & p & e & -> & Ha & Hb).
        cbn [bind]. unfold fixUp.
        (tree_crush; do 3 eexists; (split; [reflexivity|]); cbn; intuition (auto; try congruence)).
Qed.
Lemma deleteMin_shape : forall fuel (h : node T) n,
  size h < fuel -> rb n h -> redish h ->
  exists h' d, deleteMin zero fuel h = Ok (h', d, true) /\
               rb n h' /\ (isRed h = false -> isRed h' = false).
Proof.
  induction fuel as [|fuel IH]; intros h n Hs Hrb Hp; [lia|].
  destruct h as [|i l r c]; [destruct Hp|].
  cbn [deleteMin]. destruct l as [|li ll lr lc].
  - tree_crush; do 2 eexists; (split; [reflexivity|]); finish.
  - unfold moveRedLeft, fixUp.
    (tree_crush;
    lazymatch goal with
    | |- context [deleteMin zero fuel ?X] =>
        let k := bh_of X in
        destruct (IH X k) as (l' & d & -> & Hl' & Hc); [finish | finish | finish |]
    end;
    tree_crush; do 2 eexists; (split; [reflexivity|]); finish).
Qed.

Lemma deleteMax_shape : forall fuel (h : node T) n,
  size h < fuel -> (rb n h /\ redish h) \/ right_leaning n h ->
  exists h' d, deleteMax zero fuel h = Ok (h', d, true) /\
               rb n h' /\ (isRed h = false -> isRed h' = false).
Proof.
  induction fuel as [|fuel IH]; intros h n Hs Hp; [lia|].
  destruct h as [|i l r c]; [cbn in Hp; tauto|].
  cbn [deleteMax]. unfold moveRedRight, fixUp.
  (tree_crush;
    try lazymatch goal with
    | |- context [deleteMax zero _ ?X] =>
        let k := bh_of X in
        destruct (IH X k) as (l' & d & -> & Hl' & Hc);
        [solve [finish] | first [left; split; solve [finish] | right; solve [finish]] |]
    end;
    tree_crush; do 2 eexists; (split; [reflexivity|]); solve [finish]).
Qed.

Hypothesis Hord : total_order cmp.

Local Arguments bst : simpl never.

Ltac cmp_step :=
  match goal with
  | H1 : ?e = true, H2 : ?e = false |- _ => congruence
  | |- context [(?cmp ?x ?a =? 0)%Z] =>
      destruct (cmp x a =? 0)%Z eqn:?; try order_contra
  end.

Ltac crush2 := repeat (tree_crush; try cmp_step).

Lemma delete_shape : forall fuel (h : node T) n item,
  size h < fuel -> bst cmp h ->
  (rb n h /\ (h = Nil \/ redish h)) \/ (right_leaning n h /\ ge_root cmp item h) ->
  exists h' d ok, delete zero (Some cmp) fuel h item = Ok (h', d, ok) /\
               rb n h' /\ (isRed h = false -> isRed h' = false).
Proof.
  induction fuel as [|fuel IH]; intros h n item Hs Hb Hp; [lia|].
  destruct h as [|i l r c].
  { cbn. do 3 eexists. split; [reflexivity|]. cbn in *. intuition. }
  cbn [delete call_compare bind].
  destruct (cmp item i <? 0)%Z eqn:E.
  - destruct l as [|li ll lr lc].
    + do 3 eexists. split; [reflexivity|]. tree_crush; try congruence; finish.
    + unfold moveRedLeft, fixUp.
      (crush2;
      try lazymatch goal with
      | |- context [delete zero _ _ ?X _] =>
        let k := bh_of X in
        destruct (IH X k item) as (l' & d & ok & -> & Hl' & Hc);
        [solve [finish] | solve [bst_solve]
        | first [left; split; solve [finish] | right; solve [finish]] |]
      end;
      tree_crush; do 3 eexists; (split; [reflexivity|]); solve [finish]).
  - unfold moveRedRight, fixUp.
      (crush2;
      try lazymatch goal with
      | |- context [delete zero _ _ ?X _] =>
        let k := bh_of X in
        destruct (IH X k item) as (l' & d & ok & -> & Hl' & Hc);
        [solve [finish] | solve [bst_solve]
        | first [left; split; solve [finish] | right; solve [finish]] |]
      | |- context [deleteMin zero _ ?X] =>
        let k := bh_of X in
        destruct (@deleteMin_shape fuel X k) as (l' & d & -> & Hl' & Hc);
        [solve [finish] | solve [finish] | solve [finish] |]
      end;
      tree_crush; do 3 eexists; (split; [reflexivity|]); solve [finish]).
Qed.

Lemma deleteMin_root fuel (h : node T) n :
  size h < fuel -> rb n h -> isRed h = false ->
  exists h' d ok, deleteMin zero fuel h = Ok (h', d, ok) /\
                  exists m, rb m (blacken h').
Proof.
  intros Hs Hrb Hc. destruct fuel as [|fuel]; [lia|].
  destruct h as [|i l r c].
  { cbn. do 3 eexists. split; [reflexivity|]. exists O. reflexivity. }
  cbn [deleteMin]. unfold moveRedLeft, fixUp.
  (tree_crush;
    try lazymatch goal with
    | |- context [deleteMin zero _ ?X] =>
        let k := bh_of X in
        destruct (@deleteMin_shape fuel X k) as (l' & d & -> & Hl' & Hc');
        [solve [finish] | solve [finish] | solve [finish] |]
    end;
    finish_root).
Qed.

Lemma deleteMax_root fuel (h : node T) n :
  size h < fuel -> rb n h -> isRed h = false ->
  exists h' d ok, deleteMax zero fuel h = Ok (h', d, ok) /\
                  exists m, rb m (blacken h').
Proof.
  intros Hs Hrb Hc. destruct fuel as [|fuel]; [lia|].
  destruct h as [|i l r c].
  { cbn. do 3 eexists. split; [reflexivity|]. exists O. reflexivity. }
  cbn [deleteMax]. unfold moveRedRight, fixUp.
  (tree_crush;
    try lazymatch goal with
    | |- context [deleteMax zero _ ?X] =>
        let k := bh_of X in
        destruct (@deleteMax_shape fuel X k) as (l' & d & -> & Hl' & Hc');
        [solve [finish] | first [left; split; solve [finish] | right; solve [finish]] |]
    end;
    finish_root).
Qed.

Lemma delete_root fuel (h : node T) n item :
  size h < fuel -> bst cmp h -> rb n h -> isRed h = false ->
  exists h' d ok, delete zero (Some cmp) fuel h item = Ok (h', d, ok) /\
                  exists m, rb m (blacken h').
Proof.
  intros Hs Hb Hrb Hc. destruct fuel as [|fuel]; [lia|].
  destruct h as [|i l r c].
  { cbn. do 3 eexists. split; [reflexivity|]. exists O. reflexivity. }
  cbn [delete call_compare bind].
  destruct (cmp item i <? 0)%Z eqn:E.
  - destruct l as [|li ll lr lc].
    + do 3 eexists. split; [reflexivity|]. give_height. tree_crush; finish.
    + unfold moveRedLeft, fixUp.
      (crush2;
      try lazymatch goal with
      | |- context [delete zero _ _ ?X _] =>
        let k := bh_of X in
        destruct (@delete_shape fuel X k item) as (l' & d & ok & -> & Hl' & Hc');
        [solve [finish] | solve [bst_solve]
        | first [left; split; solve [finish] | right; solve [finish]] |]
      end;
      finish_root).
  - unfold moveRedRight, fixUp.
      (crush2;
      try lazymatch goal with
      | |- context [delete zero _ _ ?X _] =>
        let k := bh_of X in
        destruct (@delete_shape fuel X k item) as (l' & d & ok & -> & Hl' & Hc');
        [solve [finish] | solve [bst_solve]
        | first [left; split; solve [finish] | right; solve [finish]] |]
      | |- context [deleteMin zero _ ?X] =>
        let k := bh_of X in
        destruct (@deleteMin_shape fuel X k) as (l' & d & -> & Hl' & Hc');
        [solve [finish] | solve [finish] | solve [finish] |]
      end;
      finish_root).
Qed.
End Shape.

(** ** Contents: the in-order sequence of elements *)

Section ListRel.
Variable T : Type.
Variable cmp : CompareFunc T.

Hypothesis Hord : total_order cmp.

Lemma gt_lt a b : (cmp a b <? 0)%Z = false -> (cmp a b =? 0)%Z = false ->
  (cmp b a < 0)%Z.
Proof.
  intros H1 H2. apply Z.ltb_ge in H1. apply Z.eqb_neq in H2.
  pose proof (cmp_sym Hord a b). lia.
Qed.

Lemma replaced_left (p x : T) l l' i r :
  replaced p x l l' -> replaced p x (l ++ i :: r) (l' ++ i :: r).
Proof.
  intros (l1 & l2 & -> & ->). exists l1, (l2 ++ i :: r).
  split; repeat rewrite <- app_assoc; reflexivity.
Qed.

Lemma replaced_right (p x : T) r r' i l :
  replaced p x r r' -> replaced p x (l ++ i :: r) (l ++ i :: r').
Proof.
  intros (l1 & l2 & -> & ->). exists (l ++ i :: l1), l2.
  split; repeat rewrite <- app_assoc; reflexivity.
Qed.

Lemma removed_left (d : T) l l' i r :
  removed d l l' -> removed d (l ++ i :: r) (l' ++ i :: r).
Proof.
  intros (l1 & l2 & -> & ->). exists l1, (l2 ++ i :: r).
  split; repeat rewrite <- app_assoc; reflexivity.
Qed.

Lemma removed_right (d : T) r r' i l :
  removed d r r' -> removed d (l ++ i :: r) (l ++ i :: r').
Proof.
  intros (l1 & l2 & -> & ->). exists (l ++ i :: l1), l2.
  split; repeat rewrite <- app_assoc; reflexivity.
Qed.

Lemma inserted_left x l l' i r :
  inserted cmp x l l' -> (cmp x i < 0)%Z ->
  Forall (fun y => (cmp i y < 0)%Z) r ->
  inserted cmp x (l ++ i :: r) (l' ++ i :: r).
Proof.
  intros (l1 & l2 & -> & -> & H1 & H2) Hi Hr. exists l1, (l2 ++ i :: r).
  repeat split; repeat rewrite <- app_assoc; try reflexivity; auto.
  apply Forall_app. split; [assumption|]. constructor; [assumption|].
  eapply Forall_gt_down; eauto.
Qed.

Lemma inserted_right x r r' i l :
  inserted cmp x r r' -> (cmp i x < 0)%Z ->
  Forall (fun y => (cmp y i < 0)%Z) l ->
  inserted cmp x (l ++ i :: r) (l ++ i :: r').
Proof.
  intros (l1 & l2 & -> & -> & H1 & H2) Hi Hl. exists (l ++ i :: l1), l2.
  repeat split; repeat rewrite <- app_assoc; try reflexivity; auto.
  apply Forall_app. split; [|constructor; assumption].
  eapply Forall_lt_up; eauto.
Qed.

Lemma lt_ne a b : (cmp a b < 0)%Z -> cmp a b <> 0%Z.
Proof. lia. Qed.

Lemma Forall_lt_ne a l :
  Forall (fun y => (cmp a y < 0)%Z) l -> Forall (fun y => cmp a y <> 0%Z) l.
Proof. apply Forall_impl. intros; lia. Qed.

Lemma ge_lt_ne x i j :
  (cmp x i <? 0)%Z = false -> (cmp j i < 0)%Z -> cmp x j <> 0%Z.
Proof.
  intros H1 H2 H3. apply Z.ltb_ge in H1.
  pose proof (cmp_eq_l Hord x j i H3). lia.
Qed.

Lemma Forall_ge_ne x i l :
  (cmp x i <? 0)%Z = false -> Forall (fun y => (cmp y i < 0)%Z) l ->
  Forall (fun y => cmp x y <> 0%Z) l.
Proof.
  intros H1. apply Forall_impl. intros a Ha. eapply ge_lt_ne; eauto.
Qed.

Lemma removed_eq d (A A' B : list T) :
  removed d A B -> A' = A -> removed d A' B.
Proof. intros H ->. exact H. Qed.

Lemma removed_here (X R G A : list T) i m :
  X = m :: R -> G = A ++ i :: X -> removed i G (A ++ m :: R).
Proof. intros -> ->. exists A, (m :: R). auto. Qed.

Lemma snoc_app_eq (X L A G : list T) i d :
  X = L ++ [d] -> G = A ++ i :: X -> G = (A ++ i :: L) ++ [d].
Proof. intros -> ->. rewrite <- app_assoc. reflexivity. Qed.

End ListRel.

(** Inversion of the error monad and case analysis on a run that returned. *)

Lemma bind_Ok_inv A B (m : result A) (k : A -> result B) b :
  bind m k = Ok b -> exists a, m = Ok a /\ k a = Ok b.
Proof. destruct m; cbn; intros H; try discriminate. eauto. Qed.

Ltac monad_inv :=
  repeat (match goal with
  | H : bind _ _ = Ok _ |- _ =>
      apply bind_Ok_inv in H; destruct H as (? & ? & H); cbv beta in H
  | H : Ok _ = Ok _ |- _ => inversion H; clear H; subst
  | H : Panic = Ok _ |- _ => discriminate H
  | H : OutOfFuel = Ok _ |- _ => discriminate H
  | H : (let (_, _) := ?x in _) = Ok _ |- _ => destruct x
  end).

Ltac hyp_step :=
  match goal with
  | H : Ok _ = Ok _ |- _ => inversion H; clear H; subst
  | H : Panic = Ok _ |- _ => discriminate H
  | H : context [isRed ?t] |- _ => is_var t; destruct t
  | H : context [match ?t with Nil => _ | Node _ _ _ _ => _ end] |- _ =>
      is_var t; destruct t
  | H : context [if ?c then _ else _] |- _ => is_var c; destruct c
  end.

Ltac hyp_crush := repeat (cbn in *; unfold _red, _black in *; try hyp_step).

Ltac run_step :=
  match goal with
  | H : Ok _ = Ok _ |- _ => inversion H; clear H; subst
  | H : Panic = Ok _ |- _ => discriminate H
  | H : OutOfFuel = Ok _ |- _ => discriminate H
  | H : Node _ _ _ _ = Nil |- _ => discriminate H
  | H : context [isRed ?t] |- _ =>
      is_var t; lazymatch type of H with context [@Ok] => destruct t end
  | H : context [match ?t with Nil => _ | Node _ _ _ _ => _ end] |- _ =>
      is_var t; lazymatch type of H with context [@Ok] => destruct t end
  end.

Ltac run_crush :=
  repeat (cbn in *; unfold _red, _black in *; subst;
          try first [tree_step | run_step]).

Ltac list_eq := cbn; repeat rewrite <- app_assoc; cbn; reflexivity.

Ltac cmp_hstep :=
  match goal with
  | H1 : ?e = true, H2 : ?e = false |- _ => congruence
  | H : context [(?cmp ?x ?a =? 0)%Z] |- _ =>
      lazymatch type of H with
      | context [@Ok] => destruct (cmp x a =? 0)%Z eqn:?; try order_contra
      end
  end.

Ltac run_crush2 := repeat (run_crush; try cmp_hstep).

Ltac absent_solve :=
  unfold absent in *; cbn [elements] in *;
  repeat match goal with
  | H : (_ <? _)%Z = true |- _ => apply Z.ltb_lt in H
  | H : (_ =? _)%Z = false |- _ => apply Z.eqb_neq in H
  end;
  repeat first [rewrite elements_Node in * | rewrite Forall_app in *
               | rewrite Forall_cons_iff in *];
  repeat match goal with H : _ /\ _ |- _ => destruct H end;
  repeat split;
  eauto 6 using Forall_nil, lt_ne, Forall_lt_ne, ge_lt_ne, Forall_ge_ne,
                Forall_lt_up, Forall_gt_down, lt_trans.

(** What each operation does to the in-order sequence. *)

Section Contents.
Variable T : Type.
Variable zero : T.

Lemma rotateLeft_elements (h h' : node T) :
  rotateLeft h = Ok h' -> elements h' = elements h.
Proof. unfold rotateLeft. intros H. hyp_crush; list_eq. Qed.

Lemma rotateRight_elements (h h' : node T) :
  rotateRight h = Ok h' -> elements h' = elements h.
Proof. unfold rotateRight. intros H. hyp_crush; list_eq. Qed.

Lemma colorFlip_elements (h h' : node T) :
  colorFlip h = Ok h' -> elements h' = elements h.
Proof. unfold colorFlip. intros H. hyp_crush; list_eq. Qed.

Lemma fixUp_elements (h h' : node T) :
  fixUp h = Ok h' -> elements h' = elements h.
Proof.
  unfold fixUp. intros H. monad_inv.
  repeat match goal with
  | H : (if ?c then _ else _) = Ok _ |- _ => destruct c
  | H : rotateLeft _ = Ok _ |- _ => apply rotateLeft_elements in H
  | H : rotateRight _ = Ok _ |- _ => apply rotateRight_elements in H
  | H : colorFlip _ = Ok _ |- _ => apply colorFlip_elements in H
  | H : Ok _ = Ok _ |- _ => inversion H; clear H; subst
  end; congruence.
Qed.

Variable cmp : CompareFunc T.
Hypothesis Hord : total_order cmp.

Local Arguments fixUp : simpl never.

Lemma insert_contents (x : T) (h : node T) : forall h' p e,
  bst cmp h -> insert zero (Some cmp) h x = Ok (h', p, e) ->
  if e then cmp x p = 0%Z /\ replaced p x (elements h) (elements h')
  else p = zero /\ inserted cmp x (elements h) (elements h').
Proof.
  induction h as [|i l IHl r IHr c]; intros h' p e Hb H.
  - cbn in H. inversion H; subst. split; [reflexivity|].
    exists [], []. cbn. auto.
  - cbn [insert call_compare bind] in H. destruct Hb as (Hl & Hr & Hbl & Hbr).
    destruct (cmp x i =? 0)%Z eqn:E0; [|destruct (cmp x i <? 0)%Z eqn:E1];
      monad_inv;
      match goal with H : fixUp _ = Ok _ |- _ =>
        apply fixUp_elements in H; rewrite H; cbn [elements] end.
    + split; [apply Z.eqb_eq; assumption|]. exists (elements l), (elements r). auto.
    + apply Z.ltb_lt in E1.
      match goal with H : insert _ _ _ _ = Ok _ |- _ => apply IHl in H; [|assumption] end.
      destruct e.
      * split; [tauto|]. apply replaced_left. tauto.
      * split; [tauto|]. apply inserted_left; tauto.
    + pose proof (gt_lt Hord _ _ E1 E0).
      match goal with H : insert _ _ _ _ = Ok _ |- _ => apply IHr in H; [|assumption] end.
      destruct e.
      * split; [tauto|]. apply replaced_right. tauto.
      * split; [tauto|]. apply inserted_right; tauto.
Qed.

Lemma cons_app_eq (X L S G : list T) d :
  X = d :: L -> G = X ++ S -> G = d :: L ++ S.
Proof. intros -> ->. reflexivity. Qed.

Lemma rb_0_black (r : node T) : rb 0 r -> isRed r = false -> r = Nil.
Proof. destruct r; [reflexivity|]. intros H1 H2. tree_crush. Qed.

Ltac nil_leaves :=
  repeat match goal with
  | H : rb 0 ?r, H' : isRed ?r = false |- _ =>
      is_var r; apply rb_0_black in H; [subst r|exact H']
  end.

Lemma deleteMin_contents : forall fuel (h : node T) n h' d ok,
  rb n h -> redish h -> deleteMin zero fuel h = Ok (h', d, ok) ->
  ok = true /\ elements h = d :: elements h'.
Proof.
  induction fuel as [|fuel IH]; intros h n h' d ok Hrb Hp H; [discriminate H|].
  destruct h as [|i l r c]; [destruct Hp|].
  cbn [deleteMin] in H. destruct l as [|li ll lr lc].
  - run_crush; nil_leaves; split; reflexivity.
  - unfold moveRedLeft in H.
    (run_crush; monad_inv;
    match goal with
    | E : deleteMin zero fuel ?X = Ok _ |- _ =>
        let k := bh_of X in apply (IH X k) in E; [|solve [finish]|solve [finish]];
        destruct E as (-> & E); split; [reflexivity|];
        match goal with
        | F : fixUp _ = Ok _ |- _ => apply fixUp_elements in F; rewrite F
        end;
        rewrite elements_Node; (eapply cons_app_eq; [exact E|]); list_eq
    end).
Qed.

Lemma deleteMax_contents : forall fuel (h : node T) n h' d ok,
  (rb n h /\ redish h) \/ right_leaning n h ->
  deleteMax zero fuel h = Ok (h', d, ok) ->
  ok = true /\ elements h = elements h' ++ [d].
Proof.
  induction fuel as [|fuel IH]; intros h n h' d ok Hp H; [discriminate H|].
  destruct h as [|i l r c]; [cbn in Hp; tauto|].
  cbn [deleteMax] in H. unfold moveRedRight in H.
  (run_crush; monad_inv; nil_leaves;
    try (split; reflexivity);
    match goal with
    | E : deleteMax zero fuel ?X = Ok _ |- _ =>
        let k := bh_of X in
        apply (IH X k) in E;
        [|first [left; split; solve [finish] | right; solve [finish]]];
        destruct E as (-> & E); split; [reflexivity|];
        match goal with
        | F : fixUp _ = Ok _ |- _ => apply fixUp_elements in F; rewrite F
        end;
        rewrite elements_Node; (eapply snoc_app_eq; [exact E|]); list_eq
    end).
Qed.

Local Arguments bst : simpl never.

Lemma delete_contents : forall fuel (h : node T) n item h' d ok,
  bst cmp h ->
  (rb n h /\ (h = Nil \/ redish h)) \/ (right_leaning n h /\ ge_root cmp item h) ->
  delete zero (Some cmp) fuel h item = Ok (h', d, ok) ->
  if ok then cmp item d = 0%Z /\ removed d (elements h) (elements h')
  else d = zero /\ elements h' = elements h /\ absent cmp item (elements h).
Proof.
  induction fuel as [|fuel IH]; intros h n item h' d ok Hb Hp H; [discriminate H|].
  destruct h as [|i l r c].
  { cbn in H. inversion H; subst. cbn. repeat split. constructor. }
  cbn [delete call_compare bind] in H.
  destruct (cmp item i <? 0)%Z eqn:E0.
  - destruct l as [|li ll lr lc].
    + inversion H; subst. split; [reflexivity|]. split; [reflexivity|].
      bst_norm. absent_solve.
    + unfold moveRedLeft in H.
      (run_crush2; monad_inv;
      match goal with
      | E : delete zero _ fuel ?X item = Ok _, F : fixUp _ = Ok _ |- _ =>
          let k := bh_of X in
          apply (IH X k) in E;
          [|solve [bst_solve]
           |first [left; split; solve [finish] | right; solve [finish]]];
          apply fixUp_elements in F; cbv iota in E;
          lazymatch type of E with
          | _ /\ removed _ _ _ =>
              destruct E as (Ec & Er); split; [exact Ec|];
              rewrite F, elements_Node;
              eapply removed_eq; [apply removed_left; exact Er|list_eq]
          | _ /\ _ /\ absent _ _ _ =>
              destruct E as (-> & Ee & Ea); split; [reflexivity|]; split;
              [rewrite F, elements_Node, Ee; list_eq|bst_norm; absent_solve]
          end
      end).
  - unfold moveRedRight in H.
    (run_crush2; monad_inv; nil_leaves;
      first
      [ match goal with
        | E : delete zero _ fuel ?X item = Ok _, F : fixUp _ = Ok _ |- _ =>
          let k := bh_of X in
          apply (IH X k) in E;
          [|solve [bst_solve]
           |first [left; split; solve [finish] | right; solve [finish]]];
          apply fixUp_elements in F; cbv iota in E;
          lazymatch type of E with
          | _ /\ removed _ _ _ =>
              destruct E as (Ec & Er); split; [exact Ec|];
              rewrite F, elements_Node;
              eapply removed_eq; [apply removed_right; exact Er|list_eq]
          | _ /\ _ /\ absent _ _ _ =>
              destruct E as (-> & Ee & Ea); split; [reflexivity|]; split;
              [rewrite F, elements_Node, Ee; list_eq|bst_norm; absent_solve]
          end
        | E : deleteMin zero fuel ?X = Ok _, F : fixUp _ = Ok _ |- _ =>
          let k := bh_of X in
          apply (@deleteMin_contents fuel X k) in E;
          [|solve [finish]|solve [finish]];
          destruct E as (_ & E);
          apply fixUp_elements in F;
          split; [apply Z.eqb_eq; assumption|];
          rewrite F, elements_Node;
          (eapply removed_here; [exact E|]); list_eq
        end
      | split; [apply Z.eqb_eq; assumption|]; exists [], []; split; reflexivity ]).
Qed.

(** At the root, which is black and may have two black children. *)

Lemma deleteMin_root_contents fuel (h : node T) n h' d ok :
  rb n h -> isRed h = false -> deleteMin zero fuel h = Ok (h', d, ok) ->
  if is_nil h then h' = Nil /\ d = zero /\ ok = false
  else ok = true /\ elements h = d :: elements h'.
Proof.
  intros Hrb Hc H. destruct fuel as [|fuel]; [discriminate H|].
  destruct h as [|i l r c].
  { cbn in *. inversion H. auto. }
  cbn [deleteMin] in H. unfold moveRedLeft in H. cbn [is_nil].
  (run_crush; monad_inv; nil_leaves;
    try (split; reflexivity);
    match goal with
    | E : deleteMin zero fuel ?X = Ok _ |- _ =>
        let k := bh_of X in
        apply (@deleteMin_contents fuel X k) in E; [|solve [finish]|solve [finish]];
        destruct E as (-> & E); split; [reflexivity|];
        match goal with
        | F : fixUp _ = Ok _ |- _ => apply fixUp_elements in F; rewrite F
        end;
        rewrite elements_Node; (eapply cons_app_eq; [exact E|]); list_eq
    end).
Qed.

Lemma deleteMax_root_contents fuel (h : node T) n h' d ok :
  rb n h -> isRed h = false -> deleteMax zero fuel h = Ok (h', d, ok) ->
  if is_nil h then h' = Nil /\ d = zero /\ ok = false
  else ok = true /\ elements h = elements h' ++ [d].
Proof.
  intros Hrb Hc H. destruct fuel as [|fuel]; [discriminate H|].
  destruct h as [|i l r c].
  { cbn in *. inversion H. auto. }
  cbn [deleteMax] in H. unfold moveRedRight in H. cbn [is_nil].
  (run_crush; monad_inv; nil_leaves;
    try (split; reflexivity);
    match goal with
    | E : deleteMax zero fuel ?X = Ok _ |- _ =>
        let k := bh_of X in
        apply (@deleteMax_contents fuel X k) in E;
        [|first [left; split; solve [finish] | right; solve [finish]]];
        destruct E as (-> & E); split; [reflexivity|];
        match goal with
        | F : fixUp _ = Ok _ |- _ => apply fixUp_elements in F; rewrite F
        end;
        rewrite elements_Node; (eapply snoc_app_eq; [exact E|]); list_eq
    end).
Qed.

Lemma delete_root_contents fuel (h : node T) n item h' d ok :
  bst cmp h -> rb n h -> isRed h = false ->
  delete zero (Some cmp) fuel h item = Ok (h', d, ok) ->
  if ok then cmp item d = 0%Z /\ removed d (elements h) (elements h')
  else d = zero /\ elements h' = elements h /\ absent cmp item (elements h).
Proof.
  intros Hb Hrb Hc H. destruct fuel as [|fuel]; [discriminate H|].
  destruct h as [|i l r c].
  { cbn in H. inversion H; subst. cbn. repeat split. constructor. }
  cbn [delete call_compare bind] in H.
  destruct (cmp item i <? 0)%Z eqn:E0.
  - destruct l as [|li ll lr lc].
    + inversion H; subst. split; [reflexivity|]. split; [reflexivity|].
      bst_norm. absent_solve.
    + unfold moveRedLeft in H.
      (run_crush2; monad_inv;
      match goal with
      | E : delete zero _ fuel ?X item = Ok _, F : fixUp _ = Ok _ |- _ =>
          let k := bh_of X in
          apply (@delete_contents fuel X k) in E;
          [|solve [bst_solve]
           |first [left; split; solve [finish] | right; solve [finish]]];
          apply fixUp_elements in F; cbv iota in E;
          lazymatch type of E with
          | _ /\ removed _ _ _ =>
              destruct E as (Ec & Er); split; [exact Ec|];
              rewrite F, elements_Node;
              eapply removed_eq; [apply removed_left; exact Er|list_eq]
          | _ /\ _ /\ absent _ _ _ =>
              destruct E as (-> & Ee & Ea); split; [reflexivity|]; split;
              [rewrite F, elements_Node, Ee; list_eq|bst_norm; absent_solve]
          end
      end).
  - unfold moveRedRight in H.
    (run_crush2; monad_inv; nil_leaves;
      first
      [ match goal with
        | E : delete zero _ fuel ?X item = Ok _, F : fixUp _ = Ok _ |- _ =>
          let k := bh_of X in
          apply (@delete_contents fuel X k) in E;
          [|solve [bst_solve]
           |first [left; split; solve [finish] | right; solve [finish]]];
          apply fixUp_elements in F; cbv iota in E;
          lazymatch type of E with
          | _ /\ removed _ _ _ =>
              destruct E as (Ec & Er); split; [exact Ec|];
              rewrite F, elements_Node;
              eapply removed_eq; [apply removed_right; exact Er|list_eq]
          | _ /\ _ /\ absent _ _ _ =>
              destruct E as (-> & Ee & Ea); split; [reflexivity|]; split;
              [rewrite F, elements_Node, Ee; list_eq|bst_norm; absent_solve]
          end
        | E : deleteMin zero fuel ?X = Ok _, F : fixUp _ = Ok _ |- _ =>
          let k := bh_of X in
          apply (@deleteMin_contents fuel X k) in E;
          [|solve [finish]|solve [finish]];
          destruct E as (_ & E);
          apply fixUp_elements in F;
          split; [apply Z.eqb_eq; assumption|];
          rewrite F, elements_Node;
          (eapply removed_here; [exact E|]); list_eq
        end
      | split; [apply Z.eqb_eq; assumption|]; exists [], []; split; reflexivity ]).
Qed.

End Contents.

(** ** From the 2-3 shape to the invariants as worded; search order as
    increasing in-order sequence *)

Section Invariants.
Variable T : Type.

Lemma size_elements (h : node T) : length (elements h) = size h.
Proof.
  induction h as [|x l IHl r IHr c]; [reflexivity|].
  cbn. rewrite length_app. cbn. lia.
Qed.

Lemma rb_no_red_right (h : node T) : forall n,
  rb n h -> no_red_right_of_red h = true.
Proof.
  induction h as [|x l IHl r IHr c]; intros n H; [reflexivity|].
  cbn in *. destruct H as (Hr & H). rewrite Hr.
  destruct c.
  - destruct H as (_ & H1 & H2). cbn. rewrite (@IHl _ H1), (@IHr _ H2). reflexivity.
  - destruct n as [|m]; [destruct H|]. destruct H as (H1 & H2).
    cbn. rewrite (@IHl _ H1), (@IHr _ H2). reflexivity.
Qed.

Lemma rb_no_red_left_left (h : node T) : forall n,
  rb n h -> no_red_left_left_of_red h = true.
Proof.
  induction h as [|x l IHl r IHr c]; intros n H; [reflexivity|].
  cbn in *. destruct H as (Hr & H).
  destruct c.
  - destruct H as (Hl & H1 & H2). rewrite Hl. cbn.
    rewrite (@IHl _ H1), (@IHr _ H2). reflexivity.
  - destruct n as [|m]; [destruct H|]. destruct H as (H1 & H2).
    cbn. rewrite (@IHl _ H1), (@IHr _ H2). reflexivity.
Qed.

Lemma rb_black_depths (h : node T) : forall n,
  rb n h -> Forall (fun d => d = n) (black_depths h).
Proof.
  induction h as [|x l IHl r IHr c]; intros n H.
  - cbn in *. subst. constructor; auto.
  - cbn in *. destruct H as (_ & H). apply Forall_map.
    destruct c.
    + destruct H as (_ & H1 & H2). apply Forall_app. split; auto.
    + destruct n as [|m]; [destruct H|]. destruct H as (H1 & H2).
      apply Forall_app. split.
      * eapply Forall_impl; [|apply (IHl _ H1)]. cbn. intros; lia.
      * eapply Forall_impl; [|apply (IHr _ H2)]. cbn. intros; lia.
Qed.

Lemma rb_equal_black_depth (h : node T) n : rb n h -> equal_black_depth h.
Proof.
  intros H a b Ha Hb. pose proof (@rb_black_depths _ _ H) as F.
  rewrite Forall_forall in F. rewrite (F _ Ha), (F _ Hb). reflexivity.
Qed.

Lemma well_formed_invariants (t : LLRBTree T) :
  well_formed t -> llrb_invariants t.
Proof.
  intros (Hc & n & H). repeat split.
  - eapply rb_no_red_right; eauto.
  - eapply rb_no_red_left_left; eauto.
  - eapply rb_equal_black_depth; eauto.
  - exact Hc.
Qed.

Lemma isRed_blacken (h : node T) : isRed (blacken h) = false.
Proof. destruct h; reflexivity. Qed.

Lemma elements_blacken (h : node T) : elements (blacken h) = elements h.
Proof. destruct h; reflexivity. Qed.

Lemma size_blacken (h : node T) : size (blacken h) = size h.
Proof. destruct h; reflexivity. Qed.

Lemma arb_blacken (h : node T) n : arb n h -> exists m, rb m (blacken h).
Proof.
  destruct h as [|x l r c]; [intros []|]. cbn. intros (Hr & H).
  destruct c.
  - exists (S n). tauto.
  - exists n. tauto.
Qed.

Variable cmp : CompareFunc T.
Hypothesis Hord : total_order cmp.

Lemma increasing_app (l1 l2 : list T) :
  increasing cmp (l1 ++ l2) <->
  increasing cmp l1 /\ increasing cmp l2 /\
  Forall (fun a => Forall (fun b => (cmp a b < 0)%Z) l2) l1.
Proof.
  induction l1 as [|a l1 IH]; cbn.
  - intuition.
  - rewrite Forall_app, IH, Forall_cons_iff. tauto.
Qed.

Lemma bst_increasing (h : node T) : bst cmp h <-> increasing cmp (elements h).
Proof.
  induction h as [|x l IHl r IHr c]; cbn; [tauto|].
  rewrite increasing_app. cbn. rewrite IHl, IHr. split.
  - intros (Hl & Hr & Il & Ir). repeat split; auto.
    rewrite Forall_forall in *. intros a Ha. constructor.
    + apply Hl, Ha.
    + rewrite Forall_forall. intros b Hb.
      eapply (cmp_trans Hord); [apply Hl, Ha|apply Hr, Hb].
  - intros (Il & (Hr & Ir) & Hl). repeat split; auto.
    rewrite Forall_forall in *. intros a Ha.
    specialize (Hl a Ha). inversion Hl; assumption.
Qed.

Lemma increasing_replaced p x (l l' : list T) :
  cmp x p = 0%Z -> replaced p x l l' -> increasing cmp l -> increasing cmp l'.
Proof.
  intros E (l1 & l2 & -> & ->). rewrite !increasing_app. cbn.
  intros (I1 & (F2 & I2) & F). repeat split; auto.
  - eapply Forall_impl; [|exact F2]. cbn. intros b Hb.
    pose proof (cmp_eq_l Hord x p b E). lia.
  - eapply Forall_impl; [|exact F]. cbn. intros a Ha.
    inversion Ha; subst. constructor; [|assumption].
    pose proof (cmp_eq_l Hord x p a E).
    pose proof (cmp_sym Hord x a). pose proof (cmp_sym Hord p a). lia.
Qed.

Lemma increasing_inserted x (l l' : list T) :
  inserted cmp x l l' -> increasing cmp l -> increasing cmp l'.
Proof.
  intros (l1 & l2 & -> & -> & F1 & F2). rewrite !increasing_app. cbn.
  intros (I1 & I2 & F). repeat split; auto.
  rewrite Forall_forall in *. intros a Ha. constructor; [apply F1, Ha|].
  apply F, Ha.
Qed.

Lemma increasing_removed d (l l' : list T) :
  removed d l l' -> increasing cmp l -> increasing cmp l'.
Proof.
  intros (l1 & l2 & -> & ->). rewrite !increasing_app. cbn.
  intros (I1 & (F2 & I2) & F). repeat split; auto.
  eapply Forall_impl; [|exact F]. cbn. intros a Ha. inversion Ha; assumption.
Qed.

End Invariants.

(** ** The public operations *)

Lemma int_wrap_small z : (- 2 ^ 63 <= z < 2 ^ 63)%Z -> int_wrap z = z.
Proof. intros H. unfold int_wrap. rewrite Z.mod_small; lia. Qed.

Lemma int_wrap_add a b : int_wrap (int_wrap a + b) = int_wrap (a + b).
Proof.
  unfold int_wrap. f_equal.
  replace (((a + 2 ^ 63) mod 2 ^ 64 - 2 ^ 63 + b + 2 ^ 63)%Z)
    with (((a + 2 ^ 63) mod 2 ^ 64 + b)%Z) by lia.
  rewrite Zplus_mod_idemp_l. f_equal. lia.
Qed.

Lemma int_wrap_sub a b : int_wrap (int_wrap a - b) = int_wrap (a - b).
Proof. unfold Z.sub. apply int_wrap_add. Qed.

Section Api.
Variable T : Type.
Variable zero : T.
Variable cmp : CompareFunc T.

Lemma fixUp_total x (l r : node T) c :
  exists h', fixUp (Node x l r c) = Ok h' /\ is_nil h' = false.
Proof.
  unfold fixUp.
  repeat (tree_crush;
          try match goal with |- context [negb ?b] => is_var b; destruct b end);
  eexists; split; reflexivity.
Qed.

Lemma insert_total (x : T) (h : node T) :
  exists h' p e, insert zero (Some cmp) h x = Ok (h', p, e) /\ is_nil h' = false.
Proof.
  induction h as [|i l IHl r IHr c].
  - cbn. do 3 eexists. split; reflexivity.
  - cbn [insert call_compare bind].
    destruct (cmp x i =? 0)%Z; [|destruct (cmp x i <? 0)%Z].
    + destruct (fixUp_total x l r c) as (h' & -> & Hn). cbn. eauto.
    + destruct IHl as (l' & p & e & -> & _). cbn [bind].
      destruct (fixUp_total i l' r c) as (h' & -> & Hn). cbn. eauto.
    + destruct IHr as (r' & p & e & -> & _). cbn [bind].
      destruct (fixUp_total i l r' c) as (h' & -> & Hn). cbn. eauto.
Qed.

Hypothesis Hord : total_order cmp.

Lemma length_replaced p x (l l' : list T) :
  replaced p x l l' -> length l' = length l.
Proof. intros (l1 & l2 & -> & ->). rewrite !length_app. reflexivity. Qed.

Lemma length_inserted x (l l' : list T) :
  inserted cmp x l l' -> length l' = S (length l).
Proof.
  intros (l1 & l2 & -> & -> & _). rewrite !length_app. cbn. lia.
Qed.

Lemma length_removed d (l l' : list T) :
  removed d l l' -> length l = S (length l').
Proof. intros (l1 & l2 & -> & ->). rewrite !length_app. cbn. lia. Qed.

(** [ReplaceOrInsert] on any search tree. *)
Lemma ReplaceOrInsert_spec (t : LLRBTree T) (x : T) :
  compare t = Some cmp -> bst cmp (root t) ->
  exists t' p e,
    ReplaceOrInsert zero t x = Ok (t', p, e) /\
    compare t' = Some cmp /\ isRed (root t') = false /\
    bst cmp (root t') /\
    (forall n, rb n (root t) -> isRed (root t) = false -> well_formed t') /\
    if e then cmp x p = 0%Z /\
              replaced p x (elements (root t)) (elements (root t')) /\
              len t' = len t
    else p = zero /\
         inserted cmp x (elements (root t)) (elements (root t')) /\
         len t' = int_wrap (len t + 1).
Proof.
  intros Hc Hb. unfold ReplaceOrInsert. rewrite Hc.
  destruct (insert_total x (root t)) as (h' & p & e & Hi & Hn).
  rewrite Hi. cbn [bind].
  pose proof (insert_contents zero Hord x (root t) Hb Hi) as Hcont.
  destruct h' as [|i l r c]; [discriminate Hn|]. cbn [set_color bind].
  do 3 eexists. split; [reflexivity|]. cbn [root compare len].
  split; [reflexivity|]. split; [reflexivity|].
  change (elements (Node i l r c)) with (elements (Node i l r _black)) in Hcont.
  split.
  { apply (bst_increasing Hord). apply (bst_increasing Hord) in Hb.
    destruct e.
    - destruct Hcont as (E & R). eapply increasing_replaced; eauto.
    - destruct Hcont as (_ & R). eapply increasing_inserted; eauto. }
  split.
  { intros n Hrb Hblack.
    destruct (insert_shape zero cmp x (root t) n Hrb) as (h2 & p2 & e2 & Hi2 & Ha & Hr).
    rewrite Hi in Hi2. inversion Hi2; subst.
    split; [reflexivity|]. cbn [root].
    exact (@arb_blacken _ (Node i l r c) n Ha). }
  destruct e; intuition.
Qed.

Lemma finish_delete_root (t : LLRBTree T) r d ok :
  root (fst (fst (finish_delete t r d ok))) = blacken r.
Proof. destruct r; reflexivity. Qed.

Lemma Delete_spec (t : LLRBTree T) (x : T) :
  compare t = Some cmp -> well_formed t -> bst cmp (root t) ->
  exists t' d ok,
    Delete zero t x = Ok (t', d, ok) /\
    compare t' = Some cmp /\ well_formed t' /\ bst cmp (root t') /\
    if ok then cmp x d = 0%Z /\
               removed d (elements (root t)) (elements (root t')) /\
               len t' = int_wrap (len t - 1)
    else d = zero /\ elements (root t') = elements (root t) /\
         absent cmp x (elements (root t)) /\ len t' = len t.
Proof.
  intros Hc (Hblack & n & Hrb) Hb. unfold Delete. rewrite Hc.
  edestruct delete_root with (zero := zero) (item := x) (h := root t)
    (fuel := fuel_of t) as (h' & d & ok & E & m & Hm);
    [exact Hord|unfold fuel_of; lia|exact Hb|exact Hrb|exact Hblack|].
  rewrite E. cbn [bind].
  pose proof E as Hcont. eapply delete_root_contents in Hcont; eauto.
  do 3 eexists. split; [reflexivity|].
  unfold finish_delete. cbn [root compare len].
  change (match h' with Nil => Nil | Node i l r' _ => Node i l r' _black end)
    with (blacken h').
  split; [first [reflexivity|exact Hc]|]. split.
  { split; [apply isRed_blacken|]. exists m. exact Hm. }
  rewrite elements_blacken. split.
  { apply (bst_increasing Hord). rewrite elements_blacken.
    apply (bst_increasing Hord) in Hb. destruct ok.
    - destruct Hcont as (_ & R). eapply increasing_removed; eauto.
    - destruct Hcont as (_ & -> & _). exact Hb. }
  destruct ok; intuition.
Qed.

Lemma DeleteMin_spec (t : LLRBTree T) :
  well_formed t ->
  exists t' d ok,
    DeleteMin zero t = Ok (t', d, ok) /\
    compare t' = compare t /\ well_formed t' /\
    if is_nil (root t)
    then ok = false /\ d = zero /\ root t' = Nil /\ len t' = len t
    else ok = true /\ elements (root t) = d :: elements (root t') /\
         len t' = int_wrap (len t - 1).
Proof.
  intros (Hblack & n & Hrb). unfold DeleteMin.
  edestruct deleteMin_root with (zero := zero) (h := root t)
    (fuel := fuel_of t) as (h' & d & ok & E & m & Hm);
    [unfold fuel_of; lia|exact Hrb|exact Hblack|].
  rewrite E. cbn [bind].
  pose proof E as Hcont. eapply deleteMin_root_contents in Hcont; eauto.
  do 3 eexists. split; [reflexivity|].
  unfold finish_delete. cbn [root compare len].
  change (match h' with Nil => Nil | Node i l r' _ => Node i l r' _black end)
    with (blacken h').
  split; [reflexivity|]. split.
  { split; [apply isRed_blacken|]. exists m. exact Hm. }
  rewrite elements_blacken.
  destruct (is_nil (root t)).
  - destruct Hcont as (-> & -> & ->). auto.
  - destruct Hcont as (-> & ->). auto.
Qed.

Lemma DeleteMax_spec (t : LLRBTree T) :
  well_formed t ->
  exists t' d ok,
    DeleteMax zero t = Ok (t', d, ok) /\
    compare t' = compare t /\ well_formed t' /\
    if is_nil (root t)
    then ok = false /\ d = zero /\ root t' = Nil /\ len t' = len t
    else ok = true /\ elements (root t) = elements (root t') ++ [d] /\
         len t' = int_wrap (len t - 1).
Proof.
  intros (Hblack & n & Hrb). unfold DeleteMax.
  edestruct deleteMax_root with (zero := zero) (h := root t)
    (fuel := fuel_of t) as (h' & d & ok & E & m & Hm);
    [unfold fuel_of; lia|exact Hrb|exact Hblack|].
  rewrite E. cbn [bind].
  pose proof E as Hcont. eapply deleteMax_root_contents in Hcont; eauto.
  do 3 eexists. split; [reflexivity|].
  unfold finish_delete. cbn [root compare len].
  change (match h' with Nil => Nil | Node i l r' _ => Node i l r' _black end)
    with (blacken h').
  split; [reflexivity|]. split.
  { split; [apply isRed_blacken|]. exists m. exact Hm. }
  rewrite elements_blacken.
  destruct (is_nil (root t)).
  - destruct Hcont as (-> & -> & ->). auto.
  - destruct Hcont as (-> & ->). auto.
Qed.

End Api.

(** ** The range iterator *)

Section Iter.
Variable T : Type.
Variable zero : T.
Variable cmp : CompareFunc T.

Lemma run_iter_app St (iter : IterFunc T St) l1 l2 s :
  run_iter iter (l1 ++ l2) s =
  let '(go, s') := run_iter iter l1 s in
  if go then run_iter iter l2 s' else (false, s').
Proof.
  revert s. induction l1 as [|x l1 IH]; intros s; cbn; [reflexivity|].
  destruct (iter x s) as [go s']. destruct go; [apply IH|reflexivity].
Qed.

Lemma iterate_visit St (iter : IterFunc T St) (h : node T) desc start end_ :
  forall s,
  iterate (Some cmp) h desc start end_ iter s =
  Ok (run_iter iter (visit cmp h desc start end_) s).
Proof.
  induction h as [|hi hl IHl hr IHr c]; intros s; [reflexivity|].
  cbn [iterate visit call_compare andR bind].
  destruct desc; cbn [negb];
    destruct (valid end_); cbn [andb bind];
    repeat match goal with
    | |- context [if ?b then _ else _] =>
        lazymatch b with
        | (_ >=? _)%Z => destruct b
        | (_ <=? _)%Z => destruct b
        | (_ <? _)%Z => destruct b
        | (_ >? _)%Z => destruct b
        | valid _ => destruct b; cbn [andb bind]
        end
    end; auto;
    rewrite run_iter_app; cbn [run_iter];
    first [rewrite IHr | rewrite IHl]; cbn [bind];
    destruct (run_iter iter _ s) as [go s1]; destruct go; cbn [negb]; auto;
    destruct (iter hi s1) as [go s2]; destruct go; cbn [negb]; auto.
Qed.

(** Without bounds the comparator is never called. *)
Lemma iterate_unbounded St (iter : IterFunc T St) c (h : node T) desc :
  forall s,
  iterate c h desc (no_bound zero) (no_bound zero) iter s =
  Ok (run_iter iter (if desc then rev (elements h) else elements h) s).
Proof.
  induction h as [|hi hl IHl hr IHr col]; intros s.
  - destruct desc; reflexivity.
  - cbn [iterate no_bound valid andR bind]. destruct desc; cbn [negb elements].
    + rewrite IHr. cbn [bind]. rewrite rev_app_distr. cbn [rev].
      rewrite <- app_assoc. cbn [app]. rewrite run_iter_app. cbn [run_iter].
      destruct (run_iter iter (rev (elements hr)) s) as [go s1].
      destruct go; cbn [negb]; auto.
      destruct (iter hi s1) as [go s2]. destruct go; cbn [negb]; auto.
    + rewrite IHl. cbn [bind]. rewrite run_iter_app. cbn [run_iter].
      destruct (run_iter iter (elements hl) s) as [go s1].
      destruct go; cbn [negb]; auto.
      destruct (iter hi s1) as [go s2]. destruct go; cbn [negb]; auto.
Qed.

Lemma run_iter_logging p (l : list T) : forall log,
  snd (run_iter (logging p) l log) = log ++ calls p log l.
Proof.
  induction l as [|x l IH]; intros log; cbn.
  - rewrite app_nil_r. reflexivity.
  - destruct (p log x).
    + rewrite IH. rewrite <- app_assoc. reflexivity.
    + reflexivity.
Qed.

Lemma calls_all (l : list T) : forall log,
  calls (fun _ _ => true) log l = l.
Proof. induction l as [|x l IH]; intros log; cbn; [|rewrite IH]; reflexivity. Qed.

(** The calls stop at the first refusal. *)
Lemma calls_stop p (l1 l2 : list T) x : forall log,
  (forall j y, nth_error l1 j = Some y -> p (log ++ firstn j l1) y = true) ->
  p (log ++ l1) x = false ->
  calls p log (l1 ++ x :: l2) = l1 ++ [x].
Proof.
  induction l1 as [|a l1 IH]; intros log Hall Hx; cbn.
  - rewrite app_nil_r in Hx. rewrite Hx. reflexivity.
  - pose proof (Hall O a eq_refl) as Ha. cbn in Ha. rewrite app_nil_r in Ha.
    rewrite Ha. f_equal. apply IH.
    + intros j y Hj. specialize (Hall (S j) y Hj). cbn in Hall.
      rewrite <- app_assoc. exact Hall.
    + rewrite <- app_assoc. exact Hx.
Qed.

Hypothesis Hord : total_order cmp.

Lemma filter_none (f : T -> bool) (l : list T) :
  Forall (fun y => f y = false) l -> filter f l = [].
Proof.
  induction l as [|a l IH]; intros H; [reflexivity|].
  inversion H; subst. cbn. rewrite H2. auto.
Qed.

Lemma ge_above x e y :
  (cmp x e >=? 0)%Z = true -> (cmp x y < 0)%Z -> (cmp y e <? 0)%Z = false.
Proof.
  intros H1 H2. apply Z.ltb_ge. apply Z.geb_le in H1.
  destruct (Z_lt_ge_dec (cmp y e) 0) as [H|H]; [|lia].
  pose proof (cmp_trans Hord _ _ _ H2 H). lia.
Qed.

Lemma lt_below x e y :
  (cmp x e <? 0)%Z = true -> (cmp y x < 0)%Z -> (cmp y e >=? 0)%Z = false.
Proof.
  intros H1 H2. apply Z.ltb_lt in H1.
  pose proof (cmp_trans Hord _ _ _ H2 H1).
  destruct (cmp y e >=? 0)%Z eqn:E; [|reflexivity]. apply Z.geb_le in E. lia.
Qed.

Lemma le_below x e y :
  (cmp x e <=? 0)%Z = true -> (cmp y x < 0)%Z -> (cmp y e >? 0)%Z = false.
Proof.
  intros H1 H2. apply Z.leb_le in H1.
  destruct (cmp y e >? 0)%Z eqn:E; [|reflexivity]. apply Z.gtb_lt in E.
  exfalso.
  assert (cmp x e = 0 \/ cmp x e < 0)%Z as [H|H] by lia.
  - pose proof (cmp_eq_l Hord x e y H) as H3.
    pose proof (cmp_sym Hord x y). pose proof (cmp_sym Hord e y). lia.
  - pose proof (cmp_trans Hord _ _ _ H2 H). lia.
Qed.

Lemma gt_above x e y :
  (cmp x e >? 0)%Z = true -> (cmp x y < 0)%Z -> (cmp y e <=? 0)%Z = false.
Proof.
  intros H1 H2. apply Z.gtb_lt in H1.
  destruct (cmp y e <=? 0)%Z eqn:E; [|reflexivity]. apply Z.leb_le in E.
  exfalso.
  assert (cmp y e = 0 \/ cmp y e < 0)%Z as [H|H] by lia.
  - pose proof (cmp_eq_l Hord y e x H) as H3.
    pose proof (cmp_sym Hord x y). pose proof (cmp_sym Hord e x). lia.
  - pose proof (cmp_trans Hord _ _ _ H2 H). lia.
Qed.

Lemma visit_ascending (h : node T) start end_ :
  bst cmp h ->
  visit cmp h false start end_ =
  filter (in_range_asc cmp start end_) (elements h).
Proof.
  induction h as [|hi hl IHl hr IHr c]; intros Hb; [reflexivity|].
  destruct Hb as (Hl & Hr & Hbl & Hbr).
  cbn [visit elements negb]. rewrite filter_app. cbn [filter].
  rewrite <- (IHl Hbl), <- (IHr Hbr).
  unfold in_range_asc.
  destruct (valid end_) eqn:Ve; cbn [andb negb orb].
  - destruct (cmp hi (ni_item end_) >=? 0)%Z eqn:E1.
    + assert ((cmp hi (ni_item end_) <? 0)%Z = false) as ->.
      { apply Z.ltb_ge. apply Z.geb_le in E1. lia. }
      rewrite andb_false_r. rewrite (IHr Hbr), filter_none, app_nil_r; [reflexivity|].
      eapply Forall_impl; [|exact Hr]. cbn. intros y Hy.
      unfold in_range_asc. rewrite Ve. cbn [negb orb].
      rewrite (@ge_above _ _ _ E1 Hy). apply andb_false_r.
    + assert ((cmp hi (ni_item end_) <? 0)%Z = true) as ->.
      { apply Z.ltb_lt. destruct (Z_lt_ge_dec (cmp hi (ni_item end_)) 0); [assumption|].
        assert ((cmp hi (ni_item end_) >=? 0)%Z = true) by (apply Z.geb_le; lia).
        congruence. }
      rewrite andb_true_r.
      destruct (valid start) eqn:Vs; cbn [andb negb orb]; [|reflexivity].
      destruct (cmp hi (ni_item start) <? 0)%Z eqn:E2.
      * assert ((cmp hi (ni_item start) >=? 0)%Z = false) as ->.
        { destruct (cmp hi (ni_item start) >=? 0)%Z eqn:E; [|reflexivity].
          apply Z.geb_le in E. apply Z.ltb_lt in E2. lia. }
        rewrite (IHl Hbl), filter_none; [reflexivity|].
        eapply Forall_impl; [|exact Hl]. cbn. intros y Hy.
        unfold in_range_asc. rewrite Vs. cbn [negb orb].
        rewrite (@lt_below _ _ _ E2 Hy). reflexivity.
      * assert ((cmp hi (ni_item start) >=? 0)%Z = true) as ->.
        { apply Z.geb_le. apply Z.ltb_ge in E2. lia. }
        reflexivity.
  - rewrite andb_true_r.
    destruct (valid start) eqn:Vs; cbn [andb negb orb]; [|reflexivity].
    destruct (cmp hi (ni_item start) <? 0)%Z eqn:E2.
    + assert ((cmp hi (ni_item start) >=? 0)%Z = false) as ->.
      { destruct (cmp hi (ni_item start) >=? 0)%Z eqn:E; [|reflexivity].
        apply Z.geb_le in E. apply Z.ltb_lt in E2. lia. }
      rewrite (IHl Hbl), filter_none; [reflexivity|].
      eapply Forall_impl; [|exact Hl]. cbn. intros y Hy.
      unfold in_range_asc. rewrite Vs. cbn [negb orb].
      rewrite (@lt_below _ _ _ E2 Hy). reflexivity.
    + assert ((cmp hi (ni_item start) >=? 0)%Z = true) as ->.
      { apply Z.geb_le. apply Z.ltb_ge in E2. lia. }
      reflexivity.
Qed.

Lemma visit_descending (h : node T) start end_ :
  bst cmp h ->
  visit cmp h true start end_ =
  rev (filter (in_range_desc cmp start end_) (elements h)).
Proof.
  induction h as [|hi hl IHl hr IHr c]; intros Hb; [reflexivity|].
  destruct Hb as (Hl & Hr & Hbl & Hbr).
  cbn [visit elements negb]. rewrite filter_app. cbn [filter].
  rewrite (IHl Hbl), (IHr Hbr).
  assert (Hnil_l : (exists e, (cmp hi e <=? 0)%Z = true /\ valid end_ = true /\ e = ni_item end_) ->
          filter (in_range_desc cmp start end_) (elements hl) = []).
  { intros (e & E & Ve & ->). apply filter_none.
    eapply Forall_impl; [|exact Hl]. cbn. intros y Hy.
    unfold in_range_desc. rewrite Ve. cbn [negb orb].
    rewrite (@le_below _ _ _ E Hy). apply andb_false_r. }
  assert (Hnil_r : (exists e, (cmp hi e >? 0)%Z = true /\ valid start = true /\ e = ni_item start) ->
          filter (in_range_desc cmp start end_) (elements hr) = []).
  { intros (e & E & Vs & ->). apply filter_none.
    eapply Forall_impl; [|exact Hr]. cbn. intros y Hy.
    unfold in_range_desc. rewrite Vs. cbn [negb orb].
    rewrite (@gt_above _ _ _ E Hy). reflexivity. }
  replace (in_range_desc cmp start end_ hi)
    with ((negb (valid start) || (cmp hi (ni_item start) <=? 0)%Z) &&
          (negb (valid end_) || (cmp hi (ni_item end_) >? 0)%Z))
    by reflexivity.
  destruct (valid end_) eqn:Ve; cbn [andb negb orb].
  - destruct (cmp hi (ni_item end_) <=? 0)%Z eqn:E1.
    + assert ((cmp hi (ni_item end_) >? 0)%Z = false) as ->.
      { destruct (cmp hi (ni_item end_) >? 0)%Z eqn:E; [|reflexivity].
        apply Z.gtb_lt in E. apply Z.leb_le in E1. lia. }
      rewrite andb_false_r, Hnil_l by eauto. reflexivity.
    + assert ((cmp hi (ni_item end_) >? 0)%Z = true) as ->.
      { apply Z.gtb_lt. apply Z.leb_gt in E1. lia. }
      rewrite andb_true_r.
      destruct (valid start) eqn:Vs; cbn [andb negb orb].
      * destruct (cmp hi (ni_item start) >? 0)%Z eqn:E2.
        -- assert ((cmp hi (ni_item start) <=? 0)%Z = false) as ->.
           { apply Z.leb_gt. apply Z.gtb_lt in E2. lia. }
           rewrite Hnil_r by eauto. rewrite app_nil_r. reflexivity.
        -- assert ((cmp hi (ni_item start) <=? 0)%Z = true) as ->.
           { apply Z.leb_le. destruct (Z_le_gt_dec (cmp hi (ni_item start)) 0); [assumption|].
             assert ((cmp hi (ni_item start) >? 0)%Z = true) by (apply Z.gtb_lt; lia).
             congruence. }
           rewrite rev_app_distr. cbn [rev]. rewrite <- app_assoc. reflexivity.
      * rewrite rev_app_distr. cbn [rev]. rewrite <- app_assoc. reflexivity.
  - rewrite andb_true_r.
    destruct (valid start) eqn:Vs; cbn [andb negb orb].
    + destruct (cmp hi (ni_item start) >? 0)%Z eqn:E2.
      * assert ((cmp hi (ni_item start) <=? 0)%Z = false) as ->.
        { apply Z.leb_gt. apply Z.gtb_lt in E2. lia. }
        rewrite Hnil_r by eauto. rewrite app_nil_r. reflexivity.
      * assert ((cmp hi (ni_item start) <=? 0)%Z = true) as ->.
        { apply Z.leb_le. destruct (Z_le_gt_dec (cmp hi (ni_item start)) 0); [assumption|].
          assert ((cmp hi (ni_item start) >? 0)%Z = true) by (apply Z.gtb_lt; lia).
          congruence. }
        rewrite rev_app_distr. cbn [rev]. rewrite <- app_assoc. reflexivity.
    + rewrite rev_app_distr. cbn [rev]. rewrite <- app_assoc. reflexivity.
Qed.

(** ** Lookup *)

Lemma get_found (h : node T) (x y : T) :
  bst cmp h -> In y (elements h) -> cmp x y = 0%Z ->
  get zero (Some cmp) h x = Ok (y, true).
Proof.
  induction h as [|hi hl IHl hr IHr c]; intros Hb Hin E; [destruct Hin|].
  destruct Hb as (Hl & Hr & Hbl & Hbr).
  cbn [get call_compare bind]. cbn [elements] in Hin.
  rewrite Forall_forall in Hl, Hr.
  pose proof (cmp_eq_l Hord x y hi E) as Es.
  apply in_app_or in Hin. destruct Hin as [Hin|[<-|Hin]].
  - specialize (Hl _ Hin).
    assert ((cmp x hi =? 0)%Z = false) as -> by (apply Z.eqb_neq; lia).
    assert ((cmp x hi <? 0)%Z = true) as -> by (apply Z.ltb_lt; lia).
    auto.
  - assert ((cmp x hi =? 0)%Z = true) as -> by (apply Z.eqb_eq; exact E).
    reflexivity.
  - specialize (Hr _ Hin). pose proof (cmp_sym Hord hi y).
    assert ((cmp x hi =? 0)%Z = false) as -> by (apply Z.eqb_neq; lia).
    assert ((cmp x hi <? 0)%Z = false) as -> by (apply Z.ltb_ge; lia).
    auto.
Qed.

Lemma get_absent (h : node T) (x : T) :
  absent cmp x (elements h) -> get zero (Some cmp) h x = Ok (zero, false).
Proof.
  induction h as [|hi hl IHl hr IHr c]; intros Ha; [reflexivity|].
  cbn [get call_compare bind]. cbn [elements] in Ha. unfold absent in *.
  rewrite Forall_app, Forall_cons_iff in Ha. destruct Ha as (Hl & Hi & Hr).
  assert ((cmp x hi =? 0)%Z = false) as -> by (apply Z.eqb_neq; exact Hi).
  destruct (cmp x hi <? 0)%Z; auto.
Qed.

End Iter.

(** ** Sequences of operations *)

Section Run.
Variable T : Type.
Variable zero : T.
Variable cmp : CompareFunc T.
Hypothesis Hord : total_order cmp.

Lemma apply_op_inv (t : LLRBTree T) (o : op T) :
  tree_inv cmp t ->
  exists t', apply_op zero t o = Ok t' /\ tree_inv cmp t' /\
             size (root t') <= S (size (root t)).
Proof.
  intros (Hc & Hwf & Hb & Hlen). destruct o as [x|x| | |]; cbn [apply_op].
  - destruct (ReplaceOrInsert_spec zero Hord t x Hc Hb)
      as (t' & p & e & -> & Hc' & Hblack & Hb' & Hwf' & Hcont).
    cbn [bind]. eexists. split; [reflexivity|].
    destruct Hwf as (Hrblack & n & Hrb).
    assert (Hsz : size (root t') = if e then size (root t) else S (size (root t))).
    { rewrite <- !size_elements. destruct e.
      - destruct Hcont as (_ & R & _). apply (length_replaced R).
      - destruct Hcont as (_ & R & _). apply (length_inserted R). }
    split; [|destruct e; lia].
    split; [exact Hc'|]. split; [exact (Hwf' n Hrb Hrblack)|].
    split; [exact Hb'|].
    destruct e.
    + destruct Hcont as (_ & _ & ->). rewrite Hsz. exact Hlen.
    + destruct Hcont as (_ & _ & ->). rewrite Hsz, Hlen, int_wrap_add.
      f_equal. lia.
  - destruct (Delete_spec zero Hord x Hc Hwf Hb)
      as (t' & d & ok & -> & Hc' & Hwf' & Hb' & Hcont).
    cbn [bind]. eexists. split; [reflexivity|].
    assert (Hsz : size (root t) = if ok then S (size (root t')) else size (root t')).
    { rewrite <- !size_elements. destruct ok.
      - destruct Hcont as (_ & R & _). apply (length_removed R).
      - destruct Hcont as (_ & -> & _). reflexivity. }
    split; [|destruct ok; lia].
    split; [exact Hc'|]. split; [exact Hwf'|]. split; [exact Hb'|].
    destruct ok.
    + destruct Hcont as (_ & _ & ->). rewrite Hlen, int_wrap_sub, Hsz.
      f_equal. lia.
    + destruct Hcont as (_ & _ & _ & ->). rewrite Hlen, Hsz. reflexivity.
  - destruct (DeleteMin_spec zero Hwf)
      as (t' & d & ok & -> & Hc' & Hwf' & Hcont).
    cbn [bind]. eexists. split; [reflexivity|].
    destruct (root t) as [|i l r c] eqn:Er; cbn [is_nil] in Hcont.
    + destruct Hcont as (_ & _ & Hr' & Hl'). rewrite Hr'.
      split; [|cbn; lia].
      split; [congruence|]. split; [exact Hwf'|]. rewrite Hr'.
      split; [exact I|]. cbn in Hlen |- *. congruence.
    + destruct Hcont as (_ & He & Hl').
      assert (Hsz : size (Node i l r c) = S (size (root t'))).
      { rewrite <- !size_elements, He. reflexivity. }
      split; [|lia].
      split; [congruence|]. split; [exact Hwf'|]. split.
      * apply (bst_increasing Hord).
        apply (bst_increasing Hord) in Hb. rewrite He in Hb. apply Hb.
      * rewrite Hl', Hlen, int_wrap_sub, Hsz. f_equal. lia.
  - destruct (DeleteMax_spec zero Hwf)
      as (t' & d & ok & -> & Hc' & Hwf' & Hcont).
    cbn [bind]. eexists. split; [reflexivity|].
    destruct (root t) as [|i l r c] eqn:Er; cbn [is_nil] in Hcont.
    + destruct Hcont as (_ & _ & Hr' & Hl'). rewrite Hr'.
      split; [|cbn; lia].
      split; [congruence|]. split; [exact Hwf'|]. rewrite Hr'.
      split; [exact I|]. cbn in Hlen |- *. congruence.
    + destruct Hcont as (_ & He & Hl').
      assert (Hsz : size (Node i l r c) = S (size (root t'))).
      { rewrite <- !size_elements, He, length_app. cbn. lia. }
      split; [|lia].
      split; [congruence|]. split; [exact Hwf'|]. split.
      * apply (bst_increasing Hord).
        apply (bst_increasing Hord) in Hb. rewrite He in Hb.
        apply increasing_app in Hb. apply Hb.
      * rewrite Hl', Hlen, int_wrap_sub, Hsz. f_equal. lia.
  - eexists. split; [reflexivity|]. unfold Clear. cbn [root].
    split; [|cbn; lia].
    split; [exact Hc|]. split; [split; [reflexivity|exists O; reflexivity]|].
    split; [exact I|reflexivity].
Qed.

Lemma run_inv (ops : list (op T)) : forall t,
  tree_inv cmp t ->
  exists t', run zero t ops = Ok t' /\ tree_inv cmp t' /\
             size (root t') <= size (root t) + length ops.
Proof.
  induction ops as [|o ops IH]; intros t Hi.
  - exists t. cbn. split; [reflexivity|]. split; [exact Hi|]. lia.
  - destruct (apply_op_inv o Hi) as (t1 & E & Hi1 & Hs1).
    destruct (IH t1 Hi1) as (t' & E' & Hi' & Hs').
    exists t'. cbn [run]. rewrite E. cbn [bind].
    split; [exact E'|]. split; [exact Hi'|]. cbn [length]. lia.
Qed.

Lemma new_inv : tree_inv cmp {| root := Nil; compare := Some cmp; len := 0 |}.
Proof.
  split; [reflexivity|]. split; [split; [reflexivity|exists O; reflexivity]|].
  split; [exact I|reflexivity].
Qed.

End Run.

(** * The specification's claims *)

Section Claims.
Variable T : Type.
Variable zero : T.
Variable cmp : CompareFunc T.
Hypothesis Hord : total_order cmp.

Lemma present_not_absent (x : T) l : present cmp x l -> absent cmp x l -> False.
Proof.
  intros (y & Hin & E) Ha. unfold absent in Ha. rewrite Forall_forall in Ha.
  exact (Ha y Hin E).
Qed.

Lemma inserted_absent (x : T) l l' : inserted cmp x l l' -> absent cmp x l.
Proof.
  intros (l1 & l2 & -> & _ & F1 & F2). apply Forall_app. split.
  - eapply Forall_impl; [|exact F1]. cbn. intros y Hy.
    pose proof (cmp_sym Hord x y). lia.
  - eapply Forall_impl; [|exact F2]. cbn. intros; lia.
Qed.

Lemma replaced_In (p x : T) l l' : replaced p x l l' -> In p l.
Proof. intros (l1 & l2 & -> & _). apply in_elt. Qed.

Lemma distinct_increasing (l : list T) : increasing cmp l -> distinct cmp l = l.
Proof.
  induction l as [|x l IH]; intros H; [reflexivity|].
  destruct H as (F & I). cbn. rewrite (IH I). f_equal.
  clear IH I. induction F as [|y l Hy F IH]; [reflexivity|].
  cbn. assert ((cmp x y =? 0)%Z = false) as -> by (apply Z.eqb_neq; lia).
  cbn. f_equal. exact IH.
Qed.

Lemma increasing_filter (f : T -> bool) (l : list T) :
  increasing cmp l -> increasing cmp (filter f l).
Proof.
  induction l as [|x l IH]; intros H; [exact I|].
  destruct H as (F & Hl). cbn. destruct (f x); [|auto].
  cbn. split; [|auto]. clear IH Hl.
  induction F as [|y l Hy F IH]; [constructor|].
  cbn. destruct (f y); [constructor|]; auto.
Qed.

(** C1: on a search tree whose length counter is not about to overflow,
    [ReplaceOrInsert] returns with a black root; when an element comparing
    equal to [item] is stored it returns that element and [true], overwrites
    it in place and leaves [Len] unchanged; when none is stored it returns the
    zero value and [false], puts [item] at its place in the order and
    increments [Len] by one. *)
Theorem replace_or_insert_contract (t : LLRBTree T) (item : T) :
  compare t = Some cmp -> bst cmp (root t) ->
  (0 <= len t < 2 ^ 63 - 1)%Z ->
  exists t' prev existed,
    ReplaceOrInsert zero t item = Ok (t', prev, existed) /\
    isRed (root t') = false /\
    (present cmp item (elements (root t)) ->
       existed = true /\ In prev (elements (root t)) /\ cmp item prev = 0%Z /\
       replaced prev item (elements (root t)) (elements (root t')) /\
       Len t' = Len t) /\
    (absent cmp item (elements (root t)) ->
       existed = false /\ prev = zero /\
       inserted cmp item (elements (root t)) (elements (root t')) /\
       Len t' = (Len t + 1)%Z).
Proof.
  intros Hc Hb Hlen.
  destruct (ReplaceOrInsert_spec zero Hord t item Hc Hb)
    as (t' & p & e & E & _ & Hblack & _ & _ & Hcont).
  exists t', p, e. split; [exact E|]. split; [exact Hblack|].
  unfold Len. destruct e.
  - destruct Hcont as (Ec & R & L). split.
    + intros _. repeat split; auto. eapply replaced_In; eauto.
    + intros Ha. exfalso. apply (present_not_absent (x := item) (l := elements (root t))); [|exact Ha].
      exists p. split; [eapply replaced_In; eauto|exact Ec].
  - destruct Hcont as (-> & R & L). split.
    + intros Hp. exfalso. eapply present_not_absent; [exact Hp|].
      eapply inserted_absent; eauto.
    + intros _. repeat split; auto. rewrite L. apply int_wrap_small. lia.
Qed.

(** C2: after every sequence of [ReplaceOrInsert], [Delete], [DeleteMin],
    [DeleteMax] and [Clear] on a new tree, every call having returned, no red
    node has a red right child, no red node has a red left child whose left
    child is red, every path from the root to an absent child meets the same
    number of black nodes, and the root is black. *)
Theorem mutations_keep_llrb_invariants (ops : list (op T)) :
  exists t,
    (t0 <- NewLLRBTree (Some cmp) ;; run zero t0 ops) = Ok t /\
    llrb_invariants t.
Proof.
  destruct (run_inv zero Hord ops (new_inv cmp)) as (t & E & (_ & Hwf & _) & _).
  exists t. split; [exact E|]. apply well_formed_invariants. exact Hwf.
Qed.

(** C3: after every sequence of public mutating operations on a new tree
    (fewer than 2^63 of them), [Len] is the number of nodes under the root,
    which is the number of distinct elements stored; inserting an element that
    is present and deleting one that is absent leave [Len] unchanged. *)
Theorem len_counts_distinct_elements (ops : list (op T)) :
  (Z.of_nat (length ops) < 2 ^ 63)%Z ->
  exists t,
    (t0 <- NewLLRBTree (Some cmp) ;; run zero t0 ops) = Ok t /\
    Len t = Z.of_nat (size (root t)) /\
    size (root t) = length (distinct cmp (elements (root t))) /\
    (forall x, present cmp x (elements (root t)) ->
       exists t' prev, ReplaceOrInsert zero t x = Ok (t', prev, true) /\
                       Len t' = Len t) /\
    (forall x, absent cmp x (elements (root t)) ->
       exists t', Delete zero t x = Ok (t', zero, false) /\ Len t' = Len t).
Proof.
  intros Hn.
  destruct (run_inv zero Hord ops (new_inv cmp))
    as (t & E & (Hc & Hwf & Hb & Hlen) & Hsz).
  cbn [root size] in Hsz.
  exists t. split; [exact E|].
  assert (HL : Len t = Z.of_nat (size (root t))).
  { unfold Len. rewrite Hlen. apply int_wrap_small. lia. }
  split; [exact HL|]. split.
  { rewrite distinct_increasing, size_elements; [reflexivity|].
    apply (bst_increasing Hord). exact Hb. }
  split.
  - intros x Hp.
    destruct (ReplaceOrInsert_spec zero Hord t x Hc Hb)
      as (t' & p & e & E' & _ & _ & _ & _ & Hcont).
    destruct e.
    + exists t', p. split; [exact E'|]. unfold Len. apply Hcont.
    + exfalso. eapply present_not_absent; [exact Hp|].
      eapply inserted_absent. apply Hcont.
  - intros x Ha.
    destruct (Delete_spec zero Hord x Hc Hwf Hb)
      as (t' & d & ok & E' & _ & _ & _ & Hcont).
    destruct ok.
    + exfalso. destruct Hcont as (Ec & (l1 & l2 & El & _) & _).
      apply (present_not_absent (x := x) (l := elements (root t))); [|exact Ha].
      exists d. split; [rewrite El; apply in_elt|exact Ec].
    + destruct Hcont as (-> & _ & _ & L). exists t'. split; [exact E'|exact L].
Qed.

Lemma walk_visit St (t : LLRBTree T) desc start end_ (iter : IterFunc T St) s :
  compare t = Some cmp ->
  walk t desc start end_ iter s =
  Ok (snd (run_iter iter (visit cmp (root t) desc start end_) s)).
Proof.
  intros Hc. unfold walk. rewrite Hc, iterate_visit. cbn [bind].
  destruct (run_iter iter _ s). reflexivity.
Qed.

Lemma walk_unbounded St (t : LLRBTree T) desc (iter : IterFunc T St) s :
  walk t desc (no_bound zero) (no_bound zero) iter s =
  Ok (snd (run_iter iter
             (if desc then rev (elements (root t)) else elements (root t)) s)).
Proof.
  unfold walk. rewrite iterate_unbounded. cbn [bind].
  destruct (run_iter iter _ s). reflexivity.
Qed.

Lemma log_all (l : list T) :
  snd (run_iter (logging (fun _ _ => true)) l []) = l.
Proof. rewrite run_iter_logging, calls_all. reflexivity. Qed.

(** C4: on a search tree, [Ascend] with a callback that always continues is
    called on every stored element once, in strictly increasing order, and
    [Descend] on the reverse of that sequence. *)
Theorem ascend_descend_order (t : LLRBTree T) :
  bst cmp (root t) ->
  Ascend zero t (logging (fun _ _ => true)) [] = Ok (elements (root t)) /\
  increasing cmp (elements (root t)) /\
  Descend zero t (logging (fun _ _ => true)) [] = Ok (rev (elements (root t))).
Proof.
  intros Hb. unfold Ascend, Descend. rewrite !walk_unbounded, !log_all.
  split; [reflexivity|]. split; [|reflexivity].
  apply (bst_increasing Hord). exact Hb.
Qed.

Lemma run_iter_nil St (iter : IterFunc T St) s : snd (run_iter iter [] s) = s.
Proof. reflexivity. Qed.

(** C5: on a search tree, [AscendRange lo hi] calls the callback on the
    stored elements [e] with [lo <= e < hi], in increasing order, until it
    answers false; if [lo >= hi], or no stored element is in the range, the
    callback is never called. *)
Theorem ascend_range_bounds (t : LLRBTree T) (lo hi : T) :
  compare t = Some cmp -> bst cmp (root t) ->
  let in_range :=
    filter (fun e => (cmp e lo >=? 0)%Z && (cmp e hi <? 0)%Z)
           (elements (root t)) in
  (forall St (iter : IterFunc T St) s,
     AscendRange t lo hi iter s = Ok (snd (run_iter iter in_range s))) /\
  AscendRange t lo hi (logging (fun _ _ => true)) [] = Ok in_range /\
  increasing cmp in_range /\
  ((cmp lo hi >= 0)%Z -> in_range = []) /\
  (in_range = [] ->
   forall St (iter : IterFunc T St) s, AscendRange t lo hi iter s = Ok s).
Proof.
  intros Hc Hb in_range.
  assert (Hw : forall St (iter : IterFunc T St) s,
            AscendRange t lo hi iter s = Ok (snd (run_iter iter in_range s))).
  { intros St iter s. unfold AscendRange. rewrite walk_visit by exact Hc.
    rewrite (@visit_ascending _ _ Hord _ _ _ Hb). reflexivity. }
  split; [exact Hw|]. split; [rewrite Hw, log_all; reflexivity|].
  split; [apply increasing_filter, (bst_increasing Hord), Hb|].
  split.
  - intros Hge. apply filter_none. apply Forall_forall. intros y _.
    destruct (cmp y lo >=? 0)%Z eqn:E1; [|reflexivity].
    destruct (cmp y hi <? 0)%Z eqn:E2; [|reflexivity].
    exfalso. apply Z.geb_le in E1. apply Z.ltb_lt in E2.
    pose proof (cmp_sym Hord lo hi) as S1. pose proof (cmp_sym Hord y lo) as S2.
    assert (cmp hi lo = 0 \/ cmp hi lo < 0)%Z as [H|H] by lia.
    + pose proof (cmp_eq_l Hord hi lo y H) as H3.
      pose proof (cmp_sym Hord hi y). pose proof (cmp_sym Hord lo y). lia.
    + pose proof (cmp_trans Hord _ _ _ E2 H). lia.
  - intros Hnil St iter s. rewrite Hw, Hnil. reflexivity.
Qed.

(** C10: on a search tree, [DescendRange lessOrEqual greaterThan] calls the
    callback on the stored elements [e] with
    [greaterThan < e <= lessOrEqual], in decreasing order, until it answers
    false. *)
Theorem descend_range_bounds (t : LLRBTree T) (lessOrEqual greaterThan : T) :
  compare t = Some cmp -> bst cmp (root t) ->
  let in_range :=
    filter (fun e => (cmp e lessOrEqual <=? 0)%Z && (cmp e greaterThan >? 0)%Z)
           (elements (root t)) in
  (forall St (iter : IterFunc T St) s,
     DescendRange t lessOrEqual greaterThan iter s =
     Ok (snd (run_iter iter (rev in_range) s))) /\
  DescendRange t lessOrEqual greaterThan (logging (fun _ _ => true)) [] =
    Ok (rev in_range) /\
  increasing cmp in_range.
Proof.
  intros Hc Hb in_range.
  assert (Hw : forall St (iter : IterFunc T St) s,
            DescendRange t lessOrEqual greaterThan iter s =
            Ok (snd (run_iter iter (rev in_range) s))).
  { intros St iter s. unfold DescendRange. rewrite walk_visit by exact Hc.
    rewrite (@visit_descending _ _ Hord _ _ _ Hb). reflexivity. }
  split; [exact Hw|]. split; [rewrite Hw, log_all; reflexivity|].
  apply increasing_filter, (bst_increasing Hord), Hb.
Qed.

(** C6: for every traversal (either direction, any bounds), if the callback
    answers false on the element at position [k] of the sequence the
    traversal would visit, and true before, it is called on exactly the first
    [k + 1] elements of that sequence and on nothing else. *)
Theorem early_termination (t : LLRBTree T) (desc : bool)
    (start end_ : nullItem T) (p : list T -> T -> bool) :
  compare t = Some cmp ->
  let visited := visit cmp (root t) desc start end_ in
  walk t desc start end_ (logging (fun _ _ => true)) [] = Ok visited /\
  walk t desc start end_ (logging p) [] = Ok (calls p [] visited) /\
  forall k x,
    nth_error visited k = Some x ->
    (forall j y, j < k -> nth_error visited j = Some y ->
                 p (firstn j visited) y = true) ->
    p (firstn k visited) x = false ->
    calls p [] visited = firstn (S k) visited /\
    length (calls p [] visited) = S k.
Proof.
  intros Hc visited.
  split; [rewrite walk_visit by exact Hc; rewrite log_all; reflexivity|].
  split; [rewrite walk_visit by exact Hc; rewrite run_iter_logging; reflexivity|].
  intros k x Hk Hall Hx.
  destruct (nth_error_split visited k Hk) as (l1 & l2 & El & Hlen).
  assert (F : firstn k visited = l1).
  { rewrite El, <- Hlen. rewrite firstn_app, Nat.sub_diag, firstn_all. cbn.
    apply app_nil_r. }
  assert (C : calls p [] visited = l1 ++ [x]).
  { rewrite El at 1. apply calls_stop.
    - intros j y Hj. cbn [app].
      assert (j < k). { rewrite <- Hlen. apply nth_error_Some. congruence. }
      replace (firstn j l1) with (firstn j visited).
      + apply Hall; [assumption|]. rewrite El, nth_error_app1; [exact Hj|lia].
      + rewrite El, firstn_app. replace (j - length l1) with 0 by lia.
        cbn. apply app_nil_r.
    - cbn [app]. rewrite <- F. exact Hx. }
  split.
  - rewrite C. rewrite El. replace (S k) with (length l1 + 1) by lia.
    rewrite firstn_app_2. reflexivity.
  - rewrite C, length_app. cbn. lia.
Qed.

(** C7, amended: on a well-formed search tree, [Delete] of an item no stored
    element compares equal to returns the zero value and [false] and leaves
    [Len] and the stored elements, in order, unchanged; the tree still
    satisfies the red-black invariants (its shape may have changed). *)
Theorem delete_absent_keeps_elements (t : LLRBTree T) (item : T) :
  compare t = Some cmp -> well_formed t -> bst cmp (root t) ->
  absent cmp item (elements (root t)) ->
  exists t',
    Delete zero t item = Ok (t', zero, false) /\
    Len t' = Len t /\
    elements (root t') = elements (root t) /\
    llrb_invariants t'.
Proof.
  intros Hc Hwf Hb Ha.
  destruct (Delete_spec zero Hord item Hc Hwf Hb)
    as (t' & d & ok & E & _ & Hwf' & _ & Hcont).
  destruct ok.
  - exfalso. destruct Hcont as (Ec & (l1 & l2 & El & _) & _).
    apply (present_not_absent (x := item) (l := elements (root t))); [|exact Ha].
    exists d. split; [rewrite El; apply in_elt|exact Ec].
  - destruct Hcont as (-> & He & _ & L). exists t'.
    split; [exact E|]. split; [exact L|]. split; [exact He|].
    apply well_formed_invariants, Hwf'.
Qed.

(** C9: on a well-formed search tree every public mutating operation returns
    a search tree, and [Get] finds every stored element and reports absence
    for every item no stored element compares equal to. *)
Theorem operations_keep_search_order (t : LLRBTree T) :
  compare t = Some cmp -> well_formed t -> bst cmp (root t) ->
  (forall o, exists t', apply_op zero t o = Ok t' /\ bst cmp (root t')) /\
  (forall y, In y (elements (root t)) -> Get zero t y = Ok (y, true)) /\
  (forall x, absent cmp x (elements (root t)) -> Get zero t x = Ok (zero, false)).
Proof.
  intros Hc Hwf Hb. split; [|split].
  - intros o.
    assert (Hi : tree_inv cmp {| root := root t; compare := compare t;
                                 len := int_wrap (Z.of_nat (size (root t))) |}).
    { split; [exact Hc|]. split; [exact Hwf|]. split; [exact Hb|reflexivity]. }
    destruct o as [x|x| | |]; cbn [apply_op].
    + destruct (ReplaceOrInsert_spec zero Hord t x Hc Hb)
        as (t' & p & e & -> & _ & _ & Hb' & _). cbn. eauto.
    + destruct (Delete_spec zero Hord x Hc Hwf Hb)
        as (t' & d & ok & -> & _ & _ & Hb' & _). cbn. eauto.
    + destruct (DeleteMin_spec zero Hwf) as (t' & d & ok & -> & _ & _ & Hcont).
      cbn. eexists. split; [reflexivity|].
      apply (bst_increasing Hord). apply (bst_increasing Hord) in Hb.
      destruct (is_nil (root t)).
      * destruct Hcont as (_ & _ & -> & _). exact I.
      * destruct Hcont as (_ & He & _). rewrite He in Hb. apply Hb.
    + destruct (DeleteMax_spec zero Hwf) as (t' & d & ok & -> & _ & _ & Hcont).
      cbn. eexists. split; [reflexivity|].
      apply (bst_increasing Hord). apply (bst_increasing Hord) in Hb.
      destruct (is_nil (root t)).
      * destruct Hcont as (_ & _ & -> & _). exact I.
      * destruct Hcont as (_ & He & _). rewrite He in Hb.
        apply increasing_app in Hb. apply Hb.
    + eexists. split; [reflexivity|]. exact I.
  - intros y Hin. unfold Get. rewrite Hc. apply (get_found zero Hord); auto.
    pose proof (cmp_sym Hord y y). lia.
  - intros x Ha. unfold Get. rewrite Hc. apply get_absent. exact Ha.
Qed.

End Claims.

(** ** The comparator of the ordered adapters, and concrete instances *)

Lemma cmp_Compare_total_order : total_order cmp_Compare.
Proof.
  split; unfold cmp_Compare; intros;
    repeat match goal with
    | |- context [(?a <? ?b)%Z] => destruct (Z.ltb_spec a b)
    | |- context [(?a >? ?b)%Z] =>
        let H := fresh in
        destruct (a >? b)%Z eqn:H;
        [apply Z.gtb_lt in H|rewrite Z.gtb_ltb in H; apply Z.ltb_ge in H]
    | H : context [(?a <? ?b)%Z] |- _ => destruct (Z.ltb_spec a b)
    | H : context [(?a >? ?b)%Z] |- _ =>
        let H' := fresh in
        destruct (a >? b)%Z eqn:H';
        [apply Z.gtb_lt in H'|rewrite Z.gtb_ltb in H'; apply Z.ltb_ge in H']
    end; cbn in *; try lia.
Qed.

Lemma example_tree_reachable :
  (t0 <- NewLLRBTree (Some cmp_Compare) ;;
   run 0%Z t0 (map (@OpInsert Z) [5; 2; 7; 1; 4]%Z)) = Ok example_tree.
Proof. vm_compute. reflexivity. Qed.

Lemma example_tree_bst : bst cmp_Compare (root example_tree).
Proof. cbn. repeat (split || constructor). Qed.

Lemma example_tree_well_formed : well_formed example_tree.
Proof. split; [reflexivity|]. exists 2. cbn. tauto. Qed.

Lemma lopsided_tree_bst : bst cmp_Compare (root lopsided_tree).
Proof. cbn. repeat (split || constructor). Qed.

Lemma lopsided_tree_well_formed : well_formed lopsided_tree.
Proof. split; [reflexivity|]. exists 2. cbn. tauto. Qed.

Lemma lopsided_tree_absent_5 :
  absent cmp_Compare 5%Z (elements (root lopsided_tree)).
Proof. cbn. repeat constructor; discriminate. Qed.

(** C1, replace-or-insert: the theorem at a concrete tree. *)
Lemma replace_or_insert_contract_witness :
  exists t' prev existed,
    ReplaceOrInsert 0%Z example_tree 4%Z = Ok (t', prev, existed) /\
    isRed (root t') = false.
Proof.
  destruct (@replace_or_insert_contract Z 0%Z cmp_Compare cmp_Compare_total_order
              example_tree 4%Z) as (t' & p & e & H1 & H2 & _).
  - reflexivity.
  - exact example_tree_bst.
  - cbn. lia.
  - eauto.
Defined.

(** C3, length: the theorem at a concrete tree. *)
Lemma len_counts_distinct_elements_witness :
  exists t,
    (t0 <- NewLLRBTree (Some cmp_Compare) ;;
     run 0%Z t0 [OpInsert 3%Z; OpInsert 3%Z; OpDelete 9%Z]) = Ok t /\
    Len t = Z.of_nat (size (root t)).
Proof.
  destruct (@len_counts_distinct_elements Z 0%Z cmp_Compare cmp_Compare_total_order
              [OpInsert 3%Z; OpInsert 3%Z; OpDelete 9%Z])
    as (t & H1 & H2 & _).
  - cbn. lia.
  - eauto.
Defined.

(** C2, invariants: the theorem at a concrete tree. *)
Lemma mutations_keep_llrb_invariants_witness :
  exists t,
    (t0 <- NewLLRBTree (Some cmp_Compare) ;;
     run 0%Z t0 [OpInsert 3%Z; OpInsert 1%Z; OpDeleteMin; OpDelete 9%Z]) = Ok t /\
    llrb_invariants t.
Proof.
  exact (@mutations_keep_llrb_invariants Z 0%Z cmp_Compare cmp_Compare_total_order
           [OpInsert 3%Z; OpInsert 1%Z; OpDeleteMin; OpDelete 9%Z]).
Defined.

(** C4, ascend and descend: the theorem at a concrete tree. *)
Lemma ascend_descend_order_witness :
  Ascend 0%Z example_tree (logging (fun _ _ => true)) [] =
    Ok (elements (root example_tree)) /\
  increasing cmp_Compare (elements (root example_tree)) /\
  Descend 0%Z example_tree (logging (fun _ _ => true)) [] =
    Ok (rev (elements (root example_tree))).
Proof.
  exact (@ascend_descend_order Z 0%Z cmp_Compare cmp_Compare_total_order
           example_tree example_tree_bst).
Defined.

(** C5, ascend-range: the theorem at a concrete tree. *)
Lemma ascend_range_bounds_witness :
  AscendRange example_tree 2%Z 7%Z (logging (fun _ _ => true)) [] =
  Ok (filter (fun e => (cmp_Compare e 2 >=? 0)%Z && (cmp_Compare e 7 <? 0)%Z)
             (elements (root example_tree))).
Proof.
  exact (proj1 (proj2 (@ascend_range_bounds Z cmp_Compare cmp_Compare_total_order
           example_tree 2%Z 7%Z eq_refl example_tree_bst))).
Defined.

(** C10, descend-range: the theorem at a concrete tree. *)
Lemma descend_range_bounds_witness :
  DescendRange example_tree 5%Z 1%Z (logging (fun _ _ => true)) [] =
  Ok (rev (filter (fun e => (cmp_Compare e 5 <=? 0)%Z && (cmp_Compare e 1 >? 0)%Z)
                  (elements (root example_tree)))).
Proof.
  exact (proj1 (proj2 (@descend_range_bounds Z cmp_Compare cmp_Compare_total_order
           example_tree 5%Z 1%Z eq_refl example_tree_bst))).
Defined.

(** C6, early termination: the theorem at a concrete tree. *)
Lemma early_termination_witness :
  walk example_tree false (bound 2%Z) (no_bound 0%Z)
       (logging (fun _ x => (x <? 4)%Z)) [] =
  Ok (calls (fun _ x => (x <? 4)%Z) []
        (visit cmp_Compare (root example_tree) false (bound 2%Z) (no_bound 0%Z))).
Proof.
  exact (proj1 (proj2 (@early_termination Z cmp_Compare example_tree false
           (bound 2%Z) (no_bound 0%Z) (fun _ x => (x <? 4)%Z) eq_refl))).
Defined.

(** C7, counterexample: [Delete(5)] on the tree built from 10, 20, 40, 30
    reports not-found and returns a tree of a different shape. *)
Lemma delete_absent_changes_shape :
  (t0 <- NewLLRBTree (Some cmp_Compare) ;;
   run 0%Z t0 (map (@OpInsert Z) [10; 20; 40; 30]%Z)) = Ok lopsided_tree /\
  absent cmp_Compare 5%Z (elements (root lopsided_tree)) /\
  Delete 0%Z lopsided_tree 5%Z = Ok (lopsided_tree_after, 0%Z, false) /\
  lopsided_tree_after <> lopsided_tree /\
  root lopsided_tree_after <> root lopsided_tree.
Proof.
  split; [vm_compute; reflexivity|].
  split; [exact lopsided_tree_absent_5|].
  split; [vm_compute; reflexivity|].
  split; [intros H; apply (f_equal (@root Z)) in H|]; discriminate.
Qed.

(** C7, delete of an absent item: the theorem at a concrete tree. *)
Lemma delete_absent_keeps_elements_witness :
  exists t',
    Delete 0%Z lopsided_tree 5%Z = Ok (t', 0%Z, false) /\
    Len t' = Len lopsided_tree /\
    elements (root t') = elements (root lopsided_tree) /\
    llrb_invariants t'.
Proof.
  exact (@delete_absent_keeps_elements Z 0%Z cmp_Compare cmp_Compare_total_order
           lopsided_tree 5%Z eq_refl lopsided_tree_well_formed
           lopsided_tree_bst lopsided_tree_absent_5).
Defined.

(** C9, search order: the theorem at a concrete tree. *)
Lemma operations_keep_search_order_witness :
  (forall o, exists t', apply_op 0%Z example_tree o = Ok t' /\
                        bst cmp_Compare (root t')) /\
  (forall y, In y (elements (root example_tree)) ->
             Get 0%Z example_tree y = Ok (y, true)) /\
  (forall x, absent cmp_Compare x (elements (root example_tree)) ->
             Get 0%Z example_tree x = Ok (0%Z, false)).
Proof.
  exact (@operations_keep_search_order Z 0%Z cmp_Compare cmp_Compare_total_order
           example_tree eq_refl example_tree_well_formed example_tree_bst).
Defined.

(** C8: [NewLLRBTree] with a nil comparator does not fail: it returns an
    empty tree, on which a first [ReplaceOrInsert] succeeds and the second one
    panics at its first comparison. *)
Theorem new_accepts_nil_comparator (T : Type) (zero x y : T) :
  NewLLRBTree None = Ok {| root := @Nil T; compare := None; len := 0 |} /\
  ReplaceOrInsert zero {| root := @Nil T; compare := None; len := 0 |} x =
    Ok ({| root := Node x Nil Nil _black; compare := None; len := 1 |},
        zero, false) /\
  ReplaceOrInsert zero
    {| root := Node x Nil Nil _black; compare := None; len := 1 |} y = Panic.
Proof. repeat split. Qed.

(** * Further properties of the public operations *)

Section Lookup.
Variable T : Type.
Variable zero : T.
Variable cmp : CompareFunc T.
Hypothesis Hord : total_order cmp.

Lemma cmp_refl (x : T) : cmp x x = 0%Z.
Proof. pose proof (cmp_sym Hord x x). lia. Qed.

Lemma cmp_eq_sym (x y : T) : cmp x y = 0%Z -> cmp y x = 0%Z.
Proof. intros H. pose proof (cmp_sym Hord x y). lia. Qed.

Lemma cmp_eq_trans (x y z : T) : cmp x y = 0%Z -> cmp y z = 0%Z -> cmp x z = 0%Z.
Proof. intros H1 H2. pose proof (cmp_eq_l Hord x y z H1). lia. Qed.

Lemma present_or_absent (x : T) (l : list T) : present cmp x l \/ absent cmp x l.
Proof.
  induction l as [|a l [IH|IH]].
  - right. constructor.
  - left. destruct IH as (y & Hin & E). exists y. cbn. auto.
  - destruct (Z.eq_dec (cmp x a) 0) as [E|E].
    + left. exists a. cbn. auto.
    + right. constructor; assumption.
Qed.

Lemma increasing_unique (l : list T) (y y' : T) :
  increasing cmp l -> In y l -> In y' l -> cmp y y' = 0%Z -> y = y'.
Proof.
  induction l as [|a l IH]; intros Hi Hy Hy' E; [destruct Hy|].
  destruct Hi as (F & Hi). rewrite Forall_forall in F.
  destruct Hy as [<-|Hy], Hy' as [<-|Hy']; auto.
  - specialize (F _ Hy'). lia.
  - specialize (F _ Hy). apply cmp_eq_sym in E. lia.
Qed.

(** A lookup depends on the stored elements only, not on the shape. *)
Lemma get_elements (h h' : node T) (x : T) :
  bst cmp h -> bst cmp h' -> elements h = elements h' ->
  get zero (Some cmp) h x = get zero (Some cmp) h' x.
Proof.
  intros Hb Hb' E. destruct (present_or_absent x (elements h)) as [(y & Hin & Ey)|Ha].
  - rewrite (@get_found _ zero _ Hord _ _ _ Hb Hin Ey).
    rewrite E in Hin. rewrite (@get_found _ zero _ Hord _ _ _ Hb' Hin Ey). reflexivity.
  - rewrite (@get_absent _ zero _ _ _ Ha). rewrite E in Ha.
    rewrite (@get_absent _ zero _ _ _ Ha). reflexivity.
Qed.

Lemma In_replaced_new (p x : T) l l' : replaced p x l l' -> In x l'.
Proof. intros (l1 & l2 & _ & ->). apply in_elt. Qed.

Lemma In_inserted_new (x : T) l l' : inserted cmp x l l' -> In x l'.
Proof. intros (l1 & l2 & _ & -> & _). apply in_elt. Qed.

(** After [ReplaceOrInsert] of [x] into a search tree, [Get x] returns [x]
    itself (the new value, also when it replaced an equal element) and [Has x]
    is true. *)
Theorem insert_then_get (t : LLRBTree T) (x : T) :
  compare t = Some cmp -> bst cmp (root t) ->
  exists t' prev existed,
    ReplaceOrInsert zero t x = Ok (t', prev, existed) /\
    Get zero t' x = Ok (x, true) /\
    Has zero t' x = Ok true.
Proof.
  intros Hc Hb.
  destruct (ReplaceOrInsert_spec zero Hord t x Hc Hb)
    as (t' & p & e & E & Hc' & _ & Hb' & _ & Hcont).
  exists t', p, e. split; [exact E|].
  assert (G : Get zero t' x = Ok (x, true)).
  { unfold Get. rewrite Hc'. apply (@get_found _ zero _ Hord); auto.
    - destruct e; [eapply In_replaced_new|eapply In_inserted_new]; apply Hcont.
    - apply cmp_refl. }
  split; [exact G|]. unfold Has. rewrite G. reflexivity.
Qed.

Lemma get_other_replaced (h h' : node T) (p x y : T) :
  bst cmp h -> bst cmp h' -> cmp x p = 0%Z -> cmp x y <> 0%Z ->
  replaced p x (elements h) (elements h') ->
  get zero (Some cmp) h' y = get zero (Some cmp) h y.
Proof.
  intros Hb Hb' Exp Exy (l1 & l2 & El & El').
  assert (Hyp : cmp y p <> 0%Z).
  { intros H. apply Exy. apply cmp_eq_sym. eapply cmp_eq_trans; [exact H|].
    apply cmp_eq_sym. exact Exp. }
  assert (Hyx : cmp y x <> 0%Z) by (intros H; apply Exy, cmp_eq_sym, H).
  destruct (present_or_absent y (elements h)) as [(z & Hin & Ez)|Ha].
  - rewrite (@get_found _ zero _ Hord _ _ _ Hb Hin Ez).
    apply (@get_found _ zero _ Hord); auto.
    rewrite El in Hin. rewrite El'.
    apply in_app_or in Hin. apply in_or_app.
    destruct Hin as [H|[H|H]]; [left; exact H| |right; right; exact H].
    subst z. contradiction.
  - rewrite (@get_absent _ zero _ _ _ Ha). apply get_absent.
    unfold absent in *. rewrite El in Ha. rewrite El'.
    rewrite Forall_app, Forall_cons_iff in *. tauto.
Qed.

Lemma get_other_inserted (h h' : node T) (x y : T) :
  bst cmp h -> bst cmp h' -> cmp x y <> 0%Z ->
  inserted cmp x (elements h) (elements h') ->
  get zero (Some cmp) h' y = get zero (Some cmp) h y.
Proof.
  intros Hb Hb' Exy (l1 & l2 & El & El' & _).
  assert (Hyx : cmp y x <> 0%Z) by (intros H; apply Exy, cmp_eq_sym, H).
  destruct (present_or_absent y (elements h)) as [(z & Hin & Ez)|Ha].
  - rewrite (@get_found _ zero _ Hord _ _ _ Hb Hin Ez).
    apply (@get_found _ zero _ Hord); auto.
    rewrite El in Hin. rewrite El'.
    apply in_app_or in Hin. apply in_or_app. cbn. tauto.
  - rewrite (@get_absent _ zero _ _ _ Ha). apply get_absent.
    unfold absent in *. rewrite El in Ha. rewrite El'.
    rewrite Forall_app in *. rewrite Forall_cons_iff. tauto.
Qed.

Lemma get_other_removed (h h' : node T) (d x y : T) :
  bst cmp h -> bst cmp h' -> cmp x d = 0%Z -> cmp x y <> 0%Z ->
  removed d (elements h) (elements h') ->
  get zero (Some cmp) h' y = get zero (Some cmp) h y.
Proof.
  intros Hb Hb' Exd Exy (l1 & l2 & El & El').
  assert (Hyd : cmp y d <> 0%Z).
  { intros H. apply Exy. apply cmp_eq_sym. eapply cmp_eq_trans; [exact H|].
    apply cmp_eq_sym. exact Exd. }
  destruct (present_or_absent y (elements h)) as [(z & Hin & Ez)|Ha].
  - rewrite (@get_found _ zero _ Hord _ _ _ Hb Hin Ez).
    apply (@get_found _ zero _ Hord); auto.
    rewrite El in Hin. rewrite El'.
    apply in_app_or in Hin. apply in_or_app.
    destruct Hin as [H|[H|H]]; [left; exact H| |right; exact H].
    subst z. contradiction.
  - rewrite (@get_absent _ zero _ _ _ Ha). apply get_absent.
    unfold absent in *. rewrite El in Ha. rewrite El'.
    rewrite Forall_app in *. rewrite Forall_cons_iff in Ha. tauto.
Qed.

(** [ReplaceOrInsert] of [x] changes no other lookup: [Get y] answers as
    before for every [y] that does not compare equal to [x]. *)
Theorem insert_keeps_other_lookups (t : LLRBTree T) (x : T) :
  compare t = Some cmp -> bst cmp (root t) ->
  exists t' prev existed,
    ReplaceOrInsert zero t x = Ok (t', prev, existed) /\
    forall y, cmp x y <> 0%Z -> Get zero t' y = Get zero t y.
Proof.
  intros Hc Hb.
  destruct (ReplaceOrInsert_spec zero Hord t x Hc Hb)
    as (t' & p & e & E & Hc' & _ & Hb' & _ & Hcont).
  exists t', p, e. split; [exact E|]. intros y Hy.
  unfold Get. rewrite Hc, Hc'. destruct e.
  - destruct Hcont as (Ep & R & _). eapply get_other_replaced; eauto.
  - destruct Hcont as (_ & R & _). eapply get_other_inserted; eauto.
Qed.

Lemma removed_absent (l l' : list T) (d x : T) :
  increasing cmp l -> removed d l l' -> cmp x d = 0%Z -> absent cmp x l'.
Proof.
  intros Hi (l1 & l2 & -> & ->) E. apply increasing_app in Hi.
  destruct Hi as (_ & (F2 & _) & F1). unfold absent. apply Forall_app. split.
  - eapply Forall_impl; [|exact F1]. cbn. intros a Ha.
    inversion Ha; subst. intros H.
    pose proof (cmp_eq_l Hord x d a E). pose proof (cmp_sym Hord a d). lia.
  - eapply Forall_impl; [|exact F2]. cbn. intros a Ha H.
    pose proof (cmp_eq_l Hord x d a E). lia.
Qed.

(** [Delete] of an item that a well-formed search tree stores returns the
    stored element comparing equal to it and [true], removes exactly that
    element, decrements [Len] by one, and a following [Get] no longer finds
    it. *)
Theorem delete_present (t : LLRBTree T) (x : T) :
  compare t = Some cmp -> well_formed t -> bst cmp (root t) ->
  (- 2 ^ 63 < len t < 2 ^ 63)%Z ->
  present cmp x (elements (root t)) ->
  exists t' d,
    Delete zero t x = Ok (t', d, true) /\
    In d (elements (root t)) /\ cmp x d = 0%Z /\
    removed d (elements (root t)) (elements (root t')) /\
    Len t' = (Len t - 1)%Z /\
    Get zero t' x = Ok (zero, false).
Proof.
  intros Hc Hwf Hb Hlen Hp.
  destruct (Delete_spec zero Hord x Hc Hwf Hb)
    as (t' & d & ok & E & Hc' & _ & Hb' & Hcont).
  destruct ok.
  - destruct Hcont as (Ed & R & L). exists t', d.
    split; [exact E|].
    split; [destruct R as (l1 & l2 & -> & _); apply in_elt|].
    split; [exact Ed|]. split; [exact R|].
    split; [unfold Len; rewrite L; apply int_wrap_small; lia|].
    unfold Get. rewrite Hc'. apply get_absent.
    eapply removed_absent; eauto. apply (bst_increasing Hord). exact Hb.
  - exfalso. eapply present_not_absent; [exact Hp|]. apply Hcont.
Qed.

(** [Delete] of [x], found or not, changes no other lookup: [Get y] answers as
    before for every [y] that does not compare equal to [x]. *)
Theorem delete_keeps_other_lookups (t : LLRBTree T) (x : T) :
  compare t = Some cmp -> well_formed t -> bst cmp (root t) ->
  exists t' d ok,
    Delete zero t x = Ok (t', d, ok) /\
    forall y, cmp x y <> 0%Z -> Get zero t' y = Get zero t y.
Proof.
  intros Hc Hwf Hb.
  destruct (Delete_spec zero Hord x Hc Hwf Hb)
    as (t' & d & ok & E & Hc' & _ & Hb' & Hcont).
  exists t', d, ok. split; [exact E|]. intros y Hy.
  unfold Get. rewrite Hc, Hc'. destruct ok.
  - destruct Hcont as (Ed & R & _). eapply get_other_removed; eauto.
  - destruct Hcont as (_ & He & _). apply get_elements; auto.
Qed.

End Lookup.

Section Extremes.
Variable T : Type.
Variable zero : T.
Variable cmp : CompareFunc T.
Hypothesis Hord : total_order cmp.

Lemma tree_eq (t t' : LLRBTree T) :
  root t' = root t -> compare t' = compare t -> len t' = len t -> t' = t.
Proof. destruct t, t'. cbn. intros -> -> ->. reflexivity. Qed.

(** [DeleteMin] on an empty tree returns the zero value and [false] and leaves
    the tree as it is; on a non-empty well-formed search tree it returns the
    first stored element, smaller than all that remain, removes it and
    decrements [Len]. *)
Theorem delete_min_returns_minimum (t : LLRBTree T) :
  well_formed t -> bst cmp (root t) -> (- 2 ^ 63 < len t < 2 ^ 63)%Z ->
  exists t' d ok,
    DeleteMin zero t = Ok (t', d, ok) /\
    (root t = Nil -> ok = false /\ d = zero /\ t' = t) /\
    (root t <> Nil ->
       ok = true /\ elements (root t) = d :: elements (root t') /\
       Forall (fun y => (cmp d y < 0)%Z) (elements (root t')) /\
       Len t' = (Len t - 1)%Z).
Proof.
  intros Hwf Hb Hlen.
  destruct (DeleteMin_spec zero Hwf) as (t' & d & ok & E & Hc' & _ & Hcont).
  exists t', d, ok. split; [exact E|].
  destruct (root t) as [|i l r c] eqn:Er; cbn [is_nil] in Hcont.
  - split; [|congruence]. intros _.
    destruct Hcont as (-> & -> & Hr & Hl). repeat split.
    apply tree_eq; congruence.
  - split; [discriminate|]. intros _.
    destruct Hcont as (-> & He & Hl). split; [reflexivity|].
    split; [exact He|].
    apply (bst_increasing Hord) in Hb. rewrite He in Hb.
    split; [apply Hb|]. unfold Len. rewrite Hl. apply int_wrap_small. lia.
Qed.

(** [DeleteMax] on an empty tree returns the zero value and [false] and leaves
    the tree as it is; on a non-empty well-formed search tree it returns the
    last stored element, greater than all that remain, removes it and
    decrements [Len]. *)
Theorem delete_max_returns_maximum (t : LLRBTree T) :
  well_formed t -> bst cmp (root t) -> (- 2 ^ 63 < len t < 2 ^ 63)%Z ->
  exists t' d ok,
    DeleteMax zero t = Ok (t', d, ok) /\
    (root t = Nil -> ok = false /\ d = zero /\ t' = t) /\
    (root t <> Nil ->
       ok = true /\ elements (root t) = elements (root t') ++ [d] /\
       Forall (fun y => (cmp y d < 0)%Z) (elements (root t')) /\
       Len t' = (Len t - 1)%Z).
Proof.
  intros Hwf Hb Hlen.
  destruct (DeleteMax_spec zero Hwf) as (t' & d & ok & E & Hc' & _ & Hcont).
  exists t', d, ok. split; [exact E|].
  destruct (root t) as [|i l r c] eqn:Er; cbn [is_nil] in Hcont.
  - split; [|congruence]. intros _.
    destruct Hcont as (-> & -> & Hr & Hl). repeat split.
    apply tree_eq; congruence.
  - split; [discriminate|]. intros _.
    destruct Hcont as (-> & He & Hl). split; [reflexivity|].
    split; [exact He|].
    apply (bst_increasing Hord) in Hb. rewrite He in Hb.
    apply increasing_app in Hb. destruct Hb as (_ & _ & F).
    split.
    + eapply Forall_impl; [|exact F]. cbn. intros a Ha. inversion Ha; assumption.
    + unfold Len. rewrite Hl. apply int_wrap_small. lia.
Qed.

Lemma drain_step (t : LLRBTree T) (o : op T) :
  o = OpDeleteMin \/ o = OpDeleteMax ->
  tree_inv cmp t ->
  exists t', apply_op zero t o = Ok t' /\ tree_inv cmp t' /\
             size (root t') = pred (size (root t)).
Proof.
  intros Ho Hi. destruct (apply_op_inv zero Hord o Hi) as (t' & E & Hi' & _).
  exists t'. split; [exact E|]. split; [exact Hi'|].
  destruct Hi as (_ & Hwf & _).
  destruct Ho as [-> | ->]; cbn [apply_op] in E.
  - destruct (DeleteMin_spec zero Hwf) as (t1 & d & ok & E1 & _ & _ & Hcont).
    rewrite E1 in E. cbn in E. inversion E; subst t1.
    destruct (root t); cbn [is_nil] in Hcont.
    + destruct Hcont as (_ & _ & -> & _). reflexivity.
    + destruct Hcont as (_ & He & _).
      rewrite <- !size_elements, He. reflexivity.
  - destruct (DeleteMax_spec zero Hwf) as (t1 & d & ok & E1 & _ & _ & Hcont).
    rewrite E1 in E. cbn in E. inversion E; subst t1.
    destruct (root t); cbn [is_nil] in Hcont.
    + destruct Hcont as (_ & _ & -> & _). reflexivity.
    + destruct Hcont as (_ & He & _).
      rewrite <- !size_elements, He, length_app. cbn. lia.
Qed.

(** On a tree built by any sequence of public operations, [n] calls of
    [DeleteMin], with [n] at least the number of nodes, leave the tree empty
    with [Len] 0; one more call reports not-found and changes nothing. *)
Theorem repeated_delete_min_drains (ops : list (op T)) (n : nat) :
  exists t,
    (t0 <- NewLLRBTree (Some cmp) ;; run zero t0 ops) = Ok t /\
    (size (root t) <= n ->
     exists t', run zero t (repeat OpDeleteMin n) = Ok t' /\
                root t' = Nil /\ Len t' = 0%Z /\
                DeleteMin zero t' = Ok (t', zero, false)).
Proof.
  destruct (run_inv zero Hord ops (new_inv cmp)) as (t & E & Hi & _).
  exists t. split; [exact E|]. clear E ops. revert t Hi.
  induction n as [|n IH]; intros t Hi Hs.
  - exists t. split; [reflexivity|].
    assert (Hr : root t = Nil) by (destruct (root t); [reflexivity|cbn in Hs; lia]).
    split; [exact Hr|]. destruct Hi as (_ & Hwf & _ & Hlen).
    split; [unfold Len; rewrite Hlen, Hr; reflexivity|].
    unfold DeleteMin, fuel_of. rewrite Hr. cbn [size deleteMin bind].
    unfold finish_delete. do 3 f_equal.
    apply tree_eq; cbn; congruence.
  - destruct (drain_step (o := OpDeleteMin) (or_introl eq_refl) Hi)
      as (t1 & E1 & Hi1 & Hs1).
    destruct (IH t1 Hi1) as (t' & E' & H'); [lia|].
    exists t'. split; [|exact H']. cbn [repeat run]. rewrite E1. exact E'.
Qed.

Lemma increasing_split_unique (a a' b b' : list T) (x : T) :
  increasing cmp (a ++ x :: b) -> a ++ x :: b = a' ++ x :: b' ->
  a = a' /\ b = b'.
Proof.
  revert a'. induction a as [|y a IH]; intros a' Hi E.
  - destruct a' as [|y' a']; cbn in E.
    + injection E as Eb. auto.
    + exfalso. injection E as Ex Eb. destruct Hi as (F & _).
      rewrite Eb in F. apply Forall_app in F. destruct F as (_ & F).
      inversion F as [|? ? Hx _]. rewrite (cmp_refl Hord) in Hx. lia.
  - destruct a' as [|y' a']; cbn in E.
    + exfalso. injection E as Ex Eb. destruct Hi as (F & _).
      rewrite Ex in F. apply Forall_app in F. destruct F as (_ & F).
      inversion F as [|? ? Hx _]. rewrite (cmp_refl Hord) in Hx. lia.
    + injection E as Ey Eab. destruct Hi as (_ & Hi).
      destruct (IH a' Hi Eab) as (-> & ->). subst. auto.
Qed.

(** Inserting the same item twice in a row: the second [ReplaceOrInsert]
    returns that item and [true] and leaves elements and [Len] as the first
    one left them. *)
Theorem insert_twice (t : LLRBTree T) (x : T) :
  compare t = Some cmp -> bst cmp (root t) ->
  exists t1 prev existed t2,
    ReplaceOrInsert zero t x = Ok (t1, prev, existed) /\
    ReplaceOrInsert zero t1 x = Ok (t2, x, true) /\
    elements (root t2) = elements (root t1) /\
    Len t2 = Len t1.
Proof.
  intros Hc Hb.
  destruct (ReplaceOrInsert_spec zero Hord t x Hc Hb)
    as (t1 & p & e & E1 & Hc1 & _ & Hb1 & _ & Hcont1).
  assert (Hin : In x (elements (root t1))).
  { destruct e; [eapply In_replaced_new|eapply In_inserted_new]; apply Hcont1. }
  destruct (ReplaceOrInsert_spec zero Hord t1 x Hc1 Hb1)
    as (t2 & p2 & e2 & E2 & _ & _ & _ & _ & Hcont2).
  destruct e2.
  - destruct Hcont2 as (Ep & R & L).
    assert (p2 = x).
    { symmetry. apply (@increasing_unique _ _ Hord (elements (root t1))); auto.
      - apply (bst_increasing Hord). exact Hb1.
      - eapply replaced_In; eauto. }
    subst p2. exists t1, p, e, t2. split; [exact E1|]. split; [exact E2|].
    split; [|exact L]. destruct R as (l1 & l2 & -> & ->). reflexivity.
  - exfalso. apply (present_not_absent (cmp := cmp) (x := x) (l := elements (root t1))).
    + exists x. split; [exact Hin|apply (cmp_refl Hord)].
    + eapply inserted_absent; [exact Hord|]. apply Hcont2.
Qed.

(** Inserting an absent item and deleting it again gives back the stored
    elements and [Len] the tree had; the deletion returns the inserted item
    and [true]. *)
Theorem insert_then_delete (t : LLRBTree T) (x : T) :
  compare t = Some cmp -> well_formed t -> bst cmp (root t) ->
  (- 2 ^ 63 <= len t < 2 ^ 63)%Z ->
  absent cmp x (elements (root t)) ->
  exists t1 t2,
    ReplaceOrInsert zero t x = Ok (t1, zero, false) /\
    Delete zero t1 x = Ok (t2, x, true) /\
    elements (root t2) = elements (root t) /\
    Len t2 = Len t.
Proof.
  intros Hc (Hblack & n & Hrb) Hb Hlen Ha.
  destruct (ReplaceOrInsert_spec zero Hord t x Hc Hb)
    as (t1 & p & e & E1 & Hc1 & _ & Hb1 & Hwf1 & Hcont1).
  specialize (Hwf1 n Hrb Hblack).
  destruct e.
  { exfalso. apply (present_not_absent (cmp := cmp) (x := x) (l := elements (root t))); [|exact Ha].
    exists p. split; [eapply replaced_In|]; apply Hcont1. }
  destruct Hcont1 as (-> & Rins & L1).
  destruct (Delete_spec zero Hord x Hc1 Hwf1 Hb1)
    as (t2 & d & ok & E2 & _ & _ & _ & Hcont2).
  pose proof Hb1 as Hi1. apply (bst_increasing Hord) in Hi1.
  destruct ok.
  - destruct Hcont2 as (Ed & R & L2).
    assert (d = x).
    { symmetry. apply (@increasing_unique _ _ Hord (elements (root t1))); auto.
      - eapply In_inserted_new; eauto.
      - destruct R as (l1 & l2 & -> & _). apply in_elt. }
    subst d. exists t1, t2. split; [exact E1|]. split; [exact E2|].
    destruct Rins as (a & b & El & El1 & _). destruct R as (a' & b' & El1' & El2).
    rewrite El1 in Hi1, El1'.
    destruct (@increasing_split_unique _ _ _ _ _ Hi1 El1') as (-> & ->).
    split; [congruence|].
    unfold Len. rewrite L2, L1, int_wrap_sub.
    replace (len t + 1 - 1)%Z with (len t) by lia. apply int_wrap_small. lia.
  - exfalso. destruct Hcont2 as (_ & _ & Ha2 & _).
    apply (present_not_absent (cmp := cmp) (x := x) (l := elements (root t1))); [|exact Ha2].
    exists x. split; [eapply In_inserted_new; eauto|apply (cmp_refl Hord)].
Qed.

End Extremes.

Section Height.
Variable T : Type.
Variable zero : T.
Variable cmp : CompareFunc T.
Hypothesis Hord : total_order cmp.

Lemma rb_depth (h : node T) : forall n,
  rb n h -> maxDepth h <= 2 * n + (if isRed h then 1 else 0).
Proof.
  induction h as [|x l IHl r IHr c]; intros n H; [cbn; lia|].
  cbn in H. destruct H as (Hr & H). cbn [maxDepth isRed]. destruct c.
  - destruct H as (Hl & H1 & H2).
    specialize (@IHl _ H1). specialize (@IHr _ H2). rewrite Hl in IHl.
    rewrite Hr in IHr. lia.
  - destruct n as [|m]; [destruct H|]. destruct H as (H1 & H2).
    specialize (@IHl _ H1). specialize (@IHr _ H2). rewrite Hr in IHr.
    destruct (isRed l); lia.
Qed.

Lemma rb_size (h : node T) : forall n, rb n h -> 2 ^ n <= size h + 1.
Proof.
  induction h as [|x l IHl r IHr c]; intros n H.
  - cbn in H. subst. cbn. lia.
  - cbn in H. destruct H as (_ & H). cbn [size]. destruct c.
    + destruct H as (_ & H1 & H2). specialize (@IHl _ H1). lia.
    + destruct n as [|m]; [destruct H|]. destruct H as (H1 & H2).
      specialize (@IHl _ H1). specialize (@IHr _ H2). cbn [Nat.pow]. lia.
Qed.

(** What [assertMaxDepth] of the tests checks: after any sequence of public
    operations on a new tree, [maxDepth] of the root is at most twice the
    binary logarithm of the node count plus one. *)
Theorem depth_is_logarithmic (ops : list (op T)) :
  exists t,
    (t0 <- NewLLRBTree (Some cmp) ;; run zero t0 ops) = Ok t /\
    maxDepth (root t) <= 2 * Nat.log2 (size (root t) + 1) /\
    2 ^ maxDepth (root t) <= (size (root t) + 1) ^ 2.
Proof.
  destruct (run_inv zero Hord ops (new_inv cmp))
    as (t & E & (_ & (Hblack & n & Hrb) & _) & _).
  exists t. split; [exact E|].
  pose proof (@rb_depth _ _ Hrb) as Hd. rewrite Hblack in Hd.
  pose proof (@rb_size _ _ Hrb) as Hs.
  assert (Hn : n <= Nat.log2 (size (root t) + 1)).
  { rewrite <- (Nat.log2_pow2 n) by lia. apply Nat.log2_le_mono. exact Hs. }
  split; [lia|].
  transitivity (2 ^ (2 * n)).
  - apply Nat.pow_le_mono_r; lia.
  - rewrite Nat.mul_comm, Nat.pow_mul_r. apply Nat.pow_le_mono_l. exact Hs.
Qed.

(** On a search tree [AscendLessThan pivot] calls the callback on the stored
    elements below [pivot], and [AscendGreaterOrEqual pivot] on those not
    below it, in increasing order, until it answers false. *)
Theorem ascend_one_sided (t : LLRBTree T) (pivot : T) :
  compare t = Some cmp -> bst cmp (root t) ->
  (forall St (iter : IterFunc T St) s,
     AscendLessThan zero t pivot iter s =
     Ok (snd (run_iter iter
                (filter (fun e => (cmp e pivot <? 0)%Z) (elements (root t))) s))) /\
  (forall St (iter : IterFunc T St) s,
     AscendGreaterOrEqual zero t pivot iter s =
     Ok (snd (run_iter iter
                (filter (fun e => (cmp e pivot >=? 0)%Z) (elements (root t))) s))).
Proof.
  intros Hc Hb. split; intros St iter s.
  - unfold AscendLessThan. rewrite walk_visit with (cmp := cmp) by exact Hc.
    rewrite (@visit_ascending _ _ Hord _ _ _ Hb). reflexivity.
  - unfold AscendGreaterOrEqual. rewrite walk_visit with (cmp := cmp) by exact Hc.
    rewrite (@visit_ascending _ _ Hord _ _ _ Hb).
    do 3 f_equal. apply filter_ext. intros a. unfold in_range_asc. cbn.
    apply andb_true_r.
Qed.

(** On a search tree [DescendLessOrEqual pivot] calls the callback on the
    stored elements not above [pivot], and [DescendGreaterThan pivot] on those
    above it, in decreasing order, until it answers false. *)
Theorem descend_one_sided (t : LLRBTree T) (pivot : T) :
  compare t = Some cmp -> bst cmp (root t) ->
  (forall St (iter : IterFunc T St) s,
     DescendLessOrEqual zero t pivot iter s =
     Ok (snd (run_iter iter
                (rev (filter (fun e => (cmp e pivot <=? 0)%Z)
                             (elements (root t)))) s))) /\
  (forall St (iter : IterFunc T St) s,
     DescendGreaterThan zero t pivot iter s =
     Ok (snd (run_iter iter
                (rev (filter (fun e => (cmp e pivot >? 0)%Z)
                             (elements (root t)))) s))).
Proof.
  intros Hc Hb. split; intros St iter s.
  - unfold DescendLessOrEqual. rewrite walk_visit with (cmp := cmp) by exact Hc.
    rewrite (@visit_descending _ _ Hord _ _ _ Hb).
    do 4 f_equal. apply filter_ext. intros a. unfold in_range_desc. cbn.
    apply andb_true_r.
  - unfold DescendGreaterThan. rewrite walk_visit with (cmp := cmp) by exact Hc.
    rewrite (@visit_descending _ _ Hord _ _ _ Hb). reflexivity.
Qed.

End Height.

Section AnyTree.
Variable T : Type.
Variable zero : T.

(** [Ascend] and [Descend] never call the comparator: on every tree, whatever
    its shape and comparator (nil included), they call the callback on the
    elements in tree order, or its reverse, until it answers false. *)
Theorem unbounded_walks_never_compare (t : LLRBTree T) :
  forall St (iter : IterFunc T St) s,
    Ascend zero t iter s = Ok (snd (run_iter iter (elements (root t)) s)) /\
    Descend zero t iter s = Ok (snd (run_iter iter (rev (elements (root t))) s)).
Proof.
  intros St iter s. unfold Ascend, Descend. rewrite !walk_unbounded. auto.
Qed.

Lemma moveRedLeft_elements (h h' : node T) :
  moveRedLeft h = Ok h' -> elements h' = elements h.
Proof.
  unfold moveRedLeft. intros H.
  destruct h as [|x [|] [|] c]; try discriminate H. run_crush; list_eq.
Qed.

Lemma moveRedRight_elements (h h' : node T) :
  moveRedRight h = Ok h' -> elements h' = elements h.
Proof.
  unfold moveRedRight. intros H.
  destruct h as [|x [|] [|] c]; try discriminate H. run_crush; list_eq.
Qed.

(** [fixUp] on a non-nil node never dereferences nil: it returns a non-nil
    node with the same elements in the same order and as many nodes. *)
Theorem fix_up_always_returns (x : T) (l r : node T) (c : bool) :
  exists h',
    fixUp (Node x l r c) = Ok h' /\ is_nil h' = false /\
    elements h' = elements (Node x l r c) /\
    size h' = size (Node x l r c).
Proof.
  destruct (@fixUp_total T x l r c) as (h' & E & Hn).
  exists h'. split; [exact E|]. split; [exact Hn|].
  pose proof (@fixUp_elements _ _ _ E) as He. split; [exact He|].
  rewrite <- !size_elements, He. reflexivity.
Qed.

(** Whenever a rotation, a colour flip, [moveRedLeft] or [moveRedRight]
    returns, the result has the same elements in the same order and as many
    nodes. *)
Theorem balance_primitives_keep_order (h h' : node T) :
  rotateLeft h = Ok h' \/ rotateRight h = Ok h' \/ colorFlip h = Ok h' \/
  moveRedLeft h = Ok h' \/ moveRedRight h = Ok h' ->
  elements h' = elements h /\ size h' = size h.
Proof.
  intros H.
  assert (He : elements h' = elements h).
  { destruct H as [H|[H|[H|[H|H]]]];
      eauto using rotateLeft_elements, rotateRight_elements,
                  colorFlip_elements, moveRedLeft_elements,
                  moveRedRight_elements. }
  split; [exact He|]. rewrite <- !size_elements, He. reflexivity.
Qed.

End AnyTree.

Section Termination.
Variable T : Type.
Variable zero : T.

Lemma bind_not_out_of_fuel A B (m : result A) (k : A -> result B) :
  m <> OutOfFuel -> (forall a, m = Ok a -> k a <> OutOfFuel) ->
  bind m k <> OutOfFuel.
Proof. destruct m; cbn; intros H1 H2; auto; discriminate. Qed.

Lemma rotateLeft_returns (h : node T) : rotateLeft h <> OutOfFuel.
Proof. destruct h as [|x l [|] c]; discriminate. Qed.

Lemma rotateRight_returns (h : node T) : rotateRight h <> OutOfFuel.
Proof. destruct h as [|x [|] r c]; discriminate. Qed.

Lemma colorFlip_returns (h : node T) : colorFlip h <> OutOfFuel.
Proof. destruct h as [|x [|] [|] c]; discriminate. Qed.

Lemma fixUp_returns (h : node T) : fixUp h <> OutOfFuel.
Proof.
  destruct h as [|x l r c]; [discriminate|].
  destruct (@fixUp_total T x l r c) as (h' & -> & _). discriminate.
Qed.

Lemma moveRedLeft_returns (h : node T) : moveRedLeft h <> OutOfFuel.
Proof.
  unfold moveRedLeft. apply bind_not_out_of_fuel; [apply colorFlip_returns|].
  intros a _. destruct a as [|x l [|y rl rr rc] c]; try discriminate.
  cbn. destruct (isRed rl); [|discriminate].
  destruct rl; cbn; discriminate.
Qed.

Lemma moveRedRight_returns (h : node T) : moveRedRight h <> OutOfFuel.
Proof.
  unfold moveRedRight. apply bind_not_out_of_fuel; [apply colorFlip_returns|].
  intros a _. destruct a as [|x [|y ll lr lc] r c]; try discriminate.
  cbn. destruct (isRed ll); [|discriminate].
  destruct ll as [|z [|] ? ?]; cbn; discriminate.
Qed.

Lemma cond_size (b : bool) (f : node T -> result (node T)) (h a : node T) :
  (forall h', f h = Ok h' -> size h' = size h) ->
  (if b then f h else Ok h) = Ok a -> size a = size h.
Proof. destruct b; intros Hf H; [auto|]. inversion H. reflexivity. Qed.

Lemma moveRedLeft_size (h h' : node T) : moveRedLeft h = Ok h' -> size h' = size h.
Proof.
  intros H. rewrite <- !size_elements, (@moveRedLeft_elements T h h' H). reflexivity.
Qed.

Lemma moveRedRight_size (h h' : node T) : moveRedRight h = Ok h' -> size h' = size h.
Proof.
  intros H. rewrite <- !size_elements, (@moveRedRight_elements T h h' H). reflexivity.
Qed.

Lemma rotateRight_size (h h' : node T) : rotateRight h = Ok h' -> size h' = size h.
Proof.
  intros H. rewrite <- !size_elements, (@rotateRight_elements T h h' H). reflexivity.
Qed.

Lemma deleteMin_fuel_enough : forall fuel (h : node T),
  size h < fuel -> deleteMin zero fuel h <> OutOfFuel.
Proof.
  induction fuel as [|fuel IH]; intros h Hs; [lia|].
  destruct h as [|x l r c]; [discriminate|].
  cbn [deleteMin]. destruct l as [|li ll lr lc]; [discriminate|].
  apply bind_not_out_of_fuel.
  { destruct (negb _ && negb _); [apply moveRedLeft_returns|discriminate]. }
  intros a Ea. apply cond_size in Ea; [|apply moveRedLeft_size].
  destruct a as [|ai al ar ac]; [discriminate|]. cbn [left_of bind].
  apply bind_not_out_of_fuel; [apply IH; cbn in *; lia|].
  intros [[l' d] ok] _. cbn [set_left bind].
  apply bind_not_out_of_fuel; [apply fixUp_returns|]. discriminate.
Qed.

Lemma deleteMax_fuel_enough : forall fuel (h : node T),
  size h < fuel -> deleteMax zero fuel h <> OutOfFuel.
Proof.
  induction fuel as [|fuel IH]; intros h Hs; [lia|].
  destruct h as [|x l r c]; [discriminate|].
  cbn [deleteMax].
  apply bind_not_out_of_fuel.
  { destruct (isRed l); [apply rotateRight_returns|discriminate]. }
  intros a Ea. apply cond_size in Ea; [|apply rotateRight_size].
  destruct a as [|ai al ar ac]; [discriminate|]. cbn [right_of bind].
  destruct ar as [|ri rl rr rc]; [discriminate|].
  apply bind_not_out_of_fuel.
  { destruct (negb _ && negb _); [apply moveRedRight_returns|discriminate]. }
  intros b Eb. apply cond_size in Eb; [|apply moveRedRight_size].
  destruct b as [|bi bl br bc]; [discriminate|]. cbn [right_of bind].
  apply bind_not_out_of_fuel; [apply IH; cbn in *; lia|].
  intros [[r' d] ok] _. cbn [set_right bind].
  apply bind_not_out_of_fuel; [apply fixUp_returns|]. discriminate.
Qed.

Lemma delete_fuel_enough compare : forall fuel (h : node T) item,
  size h < fuel -> delete zero compare fuel h item <> OutOfFuel.
Proof.
  induction fuel as [|fuel IH]; intros h item Hs; [lia|].
  destruct h as [|x l r c]; [discriminate|].
  cbn [delete]. unfold call_compare.
  destruct compare as [f|]; [|discriminate]. cbn [bind].
  destruct (f item x <? 0)%Z.
  - destruct l as [|li ll lr lc]; [discriminate|].
    apply bind_not_out_of_fuel.
    { destruct (negb _ && negb _); [apply moveRedLeft_returns|discriminate]. }
    intros a Ea. apply cond_size in Ea; [|apply moveRedLeft_size].
    destruct a as [|ai al ar ac]; [discriminate|]. cbn [left_of bind].
    apply bind_not_out_of_fuel; [apply IH; cbn in *; lia|].
    intros [[l' d] ok] _. cbn [set_left bind].
    apply bind_not_out_of_fuel; [apply fixUp_returns|]. discriminate.
  - apply bind_not_out_of_fuel.
    { destruct (isRed l); [apply rotateRight_returns|discriminate]. }
    intros a Ea. apply cond_size in Ea; [|apply rotateRight_size].
    destruct a as [|ai al ar ac]; [discriminate|]. cbn [item_of right_of bind].
    destruct ((f item ai =? 0)%Z && is_nil ar); [discriminate|].
    apply bind_not_out_of_fuel.
    { destruct (is_nil ar); [discriminate|]. destruct ar; cbn; try discriminate.
      destruct (negb color); cbn; discriminate. }
    intros b _.
    apply bind_not_out_of_fuel.
    { destruct b; [apply moveRedRight_returns|discriminate]. }
    intros a2 Ea2. apply cond_size in Ea2; [|apply moveRedRight_size].
    destruct a2 as [|bi bl br bc]; [discriminate|]. cbn [item_of right_of bind].
    destruct (f item bi =? 0)%Z.
    + apply bind_not_out_of_fuel; [apply deleteMin_fuel_enough; cbn in *; lia|].
      intros [[r' d] ok] _. cbn [set_right set_item bind].
      apply bind_not_out_of_fuel; [apply fixUp_returns|]. discriminate.
    + apply bind_not_out_of_fuel; [apply IH; cbn in *; lia|].
      intros [[r' d] ok] _. cbn [set_right bind].
      apply bind_not_out_of_fuel; [apply fixUp_returns|]. discriminate.
Qed.

(** The recursions of [Delete], [DeleteMin] and [DeleteMax] descend at most as
    deep as the tree has nodes: on every tree, well-formed or not, the fuel
    the model hands them never runs out. *)
Theorem deletions_terminate (t : LLRBTree T) (item : T) :
  Delete zero t item <> OutOfFuel /\
  DeleteMin zero t <> OutOfFuel /\
  DeleteMax zero t <> OutOfFuel.
Proof.
  unfold Delete, DeleteMin, DeleteMax, fuel_of. repeat split.
  - apply bind_not_out_of_fuel; [apply delete_fuel_enough; lia|].
    intros [[r d] ok] _. discriminate.
  - apply bind_not_out_of_fuel; [apply deleteMin_fuel_enough; lia|].
    intros [[r d] ok] _. discriminate.
  - apply bind_not_out_of_fuel; [apply deleteMax_fuel_enough; lia|].
    intros [[r d] ok] _. discriminate.
Qed.

(** [ReplaceOrInsert] on any tree with a comparator, balanced and ordered or
    not, returns without a panic, with a black non-nil root and one node more
    exactly when it reports that no equal element existed. *)
Theorem insert_never_panics (t : LLRBTree T) (cmp : CompareFunc T) (item : T) :
  compare t = Some cmp ->
  exists t' prev existed,
    ReplaceOrInsert zero t item = Ok (t', prev, existed) /\
    isRed (root t') = false /\ is_nil (root t') = false /\
    length (elements (root t')) =
      (if existed then length (elements (root t))
       else S (length (elements (root t)))).
Proof.
  intros Hc. unfold ReplaceOrInsert. rewrite Hc.
  assert (H : forall h, exists h' p e,
             insert zero (Some cmp) h item = Ok (h', p, e) /\ is_nil h' = false /\
             length (elements h') =
               if e then length (elements h) else S (length (elements h))).
  { induction h as [|i l IHl r IHr c].
    - cbn. do 3 eexists. repeat split.
    - cbn [insert call_compare bind].
      destruct (cmp item i =? 0)%Z; [|destruct (cmp item i <? 0)%Z].
      + destruct (@fixUp_total T item l r c) as (h' & E & Hn). rewrite E.
        cbn. do 3 eexists. split; [reflexivity|]. split; [exact Hn|].
        rewrite (@fixUp_elements T _ _ E). cbn. rewrite !length_app. reflexivity.
      + destruct IHl as (l' & p & e & -> & _ & Hl). cbn [bind].
        destruct (@fixUp_total T i l' r c) as (h' & E & Hn). rewrite E.
        cbn. do 3 eexists. split; [reflexivity|]. split; [exact Hn|].
        rewrite (@fixUp_elements T _ _ E). cbn. rewrite !length_app, Hl.
        destruct e; cbn; lia.
      + destruct IHr as (r' & p & e & -> & _ & Hl). cbn [bind].
        destruct (@fixUp_total T i l r' c) as (h' & E & Hn). rewrite E.
        cbn. do 3 eexists. split; [reflexivity|]. split; [exact Hn|].
        rewrite (@fixUp_elements T _ _ E). cbn. rewrite !length_app. cbn. rewrite Hl.
        destruct e; cbn; lia. }
  destruct (H (root t)) as (h' & p & e & -> & Hn & Hl). cbn [bind].
  destruct h' as [|i l r c]; [discriminate Hn|]. cbn.
  do 3 eexists. split; [reflexivity|]. repeat split. exact Hl.
Qed.

End Termination.

Section SetAdapter.
Variable T : Type.
Variable zero : T.
Variable Compare : CompareFunc T.
Hypothesis Hord : total_order Compare.

Lemma Has_spec (t : LLRBTree T) (x : T) :
  compare t = Some Compare -> bst Compare (root t) ->
  (present Compare x (elements (root t)) /\ Has zero t x = Ok true) \/
  (absent Compare x (elements (root t)) /\ Has zero t x = Ok false).
Proof.
  intros Hc Hb. unfold Has, Get. rewrite Hc.
  destruct (@present_or_absent T Compare x (elements (root t))) as [Hp|Ha].
  - left. split; [exact Hp|]. destruct Hp as (y & Hin & E).
    rewrite (@get_found _ zero _ Hord _ _ _ Hb Hin E). reflexivity.
  - right. split; [exact Ha|].
    rewrite (@get_absent _ zero _ _ _ Ha). reflexivity.
Qed.

(** On a search tree [Has x] is true exactly when a stored element compares
    equal to [x], and false exactly when none does. *)
Theorem has_iff_present (t : LLRBTree T) (x : T) :
  compare t = Some Compare -> bst Compare (root t) ->
  (Has zero t x = Ok true <-> present Compare x (elements (root t))) /\
  (Has zero t x = Ok false <-> absent Compare x (elements (root t))).
Proof.
  intros Hc Hb.
  destruct (@Has_spec t x Hc Hb) as [(Hp & E)|(Ha & E)]; rewrite E; split; split;
    intros H; auto; try discriminate.
  - exfalso. eapply present_not_absent; eauto.
  - exfalso. eapply present_not_absent; eauto.
Qed.

(** [LLRBSet.Insert] returns whether the value was in the set before;
    afterwards it is in the set, membership of every other value is as before,
    and [Len] grew by one exactly when it was new. *)
Theorem set_insert_reports_membership (s : LLRBSet T) (x : T) :
  tree_inv Compare (tr s) ->
  exists s' existed,
    LLRBSet_Insert zero s x = Ok (s', existed) /\
    tree_inv Compare (tr s') /\
    LLRBSet_Has zero s x = Ok existed /\
    LLRBSet_Has zero s' x = Ok true /\
    (forall y, Compare x y <> 0%Z ->
               LLRBSet_Has zero s' y = LLRBSet_Has zero s y) /\
    LLRBSet_Len s' =
      (if existed then LLRBSet_Len s else int_wrap (LLRBSet_Len s + 1)).
Proof.
  intros Hi. pose proof Hi as (Hc & Hwf & Hb & Hlen).
  destruct (apply_op_inv zero Hord (OpInsert x) Hi) as (t1 & E1 & Hi1 & _).
  cbn [apply_op] in E1.
  destruct (ReplaceOrInsert_spec zero Hord (tr s) x Hc Hb)
    as (t' & p & e & E & Hc' & _ & Hb' & _ & Hcont).
  rewrite E in E1. cbn in E1. inversion E1; subst t1. clear E1.
  unfold LLRBSet_Insert, LLRBSet_Has, LLRBSet_Len. rewrite E. cbn [bind tr].
  exists {| tr := t' |}, e. split; [reflexivity|]. cbn [tr].
  split; [exact Hi1|]. split.
  { destruct (@Has_spec (tr s) x Hc Hb) as [(Hp & ->)|(Ha & ->)]; destruct e; auto.
    - exfalso. eapply present_not_absent; [exact Hp|].
      eapply inserted_absent; [exact Hord|apply Hcont].
    - exfalso. eapply present_not_absent; [|exact Ha].
      exists p. split; [eapply replaced_In|]; apply Hcont. }
  split.
  { unfold Has, Get. rewrite Hc'.
    rewrite (@get_found _ zero _ Hord (root t') x x); auto.
    - destruct e; [eapply In_replaced_new|eapply In_inserted_new]; apply Hcont.
    - apply (cmp_refl Hord). }
  split.
  { intros y Hy. unfold Has, Get. rewrite Hc, Hc'. destruct e.
    - destruct Hcont as (Ep & R & _).
      assert (G : get zero (Some Compare) (root t') y =
                  get zero (Some Compare) (root (tr s)) y)
        by (eapply get_other_replaced; eauto).
      rewrite G. reflexivity.
    - destruct Hcont as (_ & R & _).
      assert (G : get zero (Some Compare) (root t') y =
                  get zero (Some Compare) (root (tr s)) y)
        by (eapply get_other_inserted; eauto).
      rewrite G. reflexivity. }
  unfold Len. destruct e; apply Hcont.
Qed.

(** [LLRBSet.Delete] returns whether the value was in the set before;
    afterwards it is not, membership of every other value is as before, and
    [Len] shrank by one exactly when it was there. *)
Theorem set_delete_reports_membership (s : LLRBSet T) (x : T) :
  tree_inv Compare (tr s) ->
  exists s' existed,
    LLRBSet_Delete zero s x = Ok (s', existed) /\
    tree_inv Compare (tr s') /\
    LLRBSet_Has zero s x = Ok existed /\
    LLRBSet_Has zero s' x = Ok false /\
    (forall y, Compare x y <> 0%Z ->
               LLRBSet_Has zero s' y = LLRBSet_Has zero s y) /\
    LLRBSet_Len s' =
      (if existed then int_wrap (LLRBSet_Len s - 1) else LLRBSet_Len s).
Proof.
  intros Hi. pose proof Hi as (Hc & Hwf & Hb & Hlen).
  destruct (apply_op_inv zero Hord (OpDelete x) Hi) as (t1 & E1 & Hi1 & _).
  cbn [apply_op] in E1.
  destruct (Delete_spec zero Hord x Hc Hwf Hb)
    as (t' & d & ok & E & Hc' & _ & Hb' & Hcont).
  rewrite E in E1. cbn in E1. inversion E1; subst t1. clear E1.
  unfold LLRBSet_Delete, LLRBSet_Has, LLRBSet_Len. rewrite E. cbn [bind tr].
  exists {| tr := t' |}, ok. split; [reflexivity|]. cbn [tr].
  split; [exact Hi1|]. split.
  { destruct (@Has_spec (tr s) x Hc Hb) as [(Hp & ->)|(Ha & ->)]; destruct ok; auto.
    - exfalso. eapply present_not_absent; [exact Hp|]. apply Hcont.
    - exfalso. eapply present_not_absent; [|exact Ha].
      destruct Hcont as (Ed & (l1 & l2 & El & _) & _).
      exists d. split; [rewrite El; apply in_elt|exact Ed]. }
  split.
  { unfold Has, Get. rewrite Hc'. destruct ok.
    - destruct Hcont as (Ed & R & _).
      assert (Hinc : increasing Compare (elements (root (tr s))))
        by (apply (bst_increasing Hord); exact Hb).
      pose proof (@removed_absent T Compare Hord _ _ d x Hinc R Ed) as Ha.
      rewrite (@get_absent _ zero _ _ _ Ha). reflexivity.
    - destruct Hcont as (_ & He & Ha & _). rewrite <- He in Ha.
      rewrite (@get_absent _ zero _ _ _ Ha). reflexivity. }
  split.
  { intros y Hy. unfold Has, Get. rewrite Hc, Hc'. destruct ok.
    - destruct Hcont as (Ed & R & _).
      assert (G : get zero (Some Compare) (root t') y =
                  get zero (Some Compare) (root (tr s)) y)
        by (eapply get_other_removed; eauto).
      rewrite G. reflexivity.
    - destruct Hcont as (_ & He & _).
      rewrite (@get_elements _ zero _ Hord (root t') (root (tr s)) y); auto. }
  unfold Len. destruct ok; apply Hcont.
Qed.

(** [LLRBSet.Range] with a callback that always continues visits the members
    in strictly increasing order, each once; the values it visits are those
    [Has] accepts, and their number is [Len]. *)
Theorem set_range_is_sorted (s : LLRBSet T) :
  tree_inv Compare (tr s) ->
  exists l,
    LLRBSet_Range zero s (logging (fun _ _ => true)) [] = Ok l /\
    increasing Compare l /\
    (forall x, LLRBSet_Has zero s x = Ok true <-> present Compare x l) /\
    LLRBSet_Len s = int_wrap (Z.of_nat (length l)).
Proof.
  intros (Hc & Hwf & Hb & Hlen). exists (elements (root (tr s))).
  split.
  { unfold LLRBSet_Range, Ascend. rewrite walk_unbounded, log_all. reflexivity. }
  split; [apply (bst_increasing Hord); exact Hb|]. split.
  - intros x.
    destruct (@Has_spec (tr s) x Hc Hb) as [(Hp & E)|(Ha & E)];
      unfold LLRBSet_Has; rewrite E; split; intros H; auto; try discriminate.
    exfalso. eapply present_not_absent; eauto.
  - unfold LLRBSet_Len, Len. rewrite Hlen, size_elements. reflexivity.
Qed.

End SetAdapter.

(** ** Instances at concrete trees *)

Lemma example_tree_inv : tree_inv cmp_Compare example_tree.
Proof.
  split; [reflexivity|]. split; [exact example_tree_well_formed|].
  split; [exact example_tree_bst|]. reflexivity.
Qed.

Lemma insert_then_get_witness :
  exists t' prev existed,
    ReplaceOrInsert 0%Z example_tree 3%Z = Ok (t', prev, existed) /\
    Get 0%Z t' 3%Z = Ok (3%Z, true) /\ Has 0%Z t' 3%Z = Ok true.
Proof.
  exact (@insert_then_get Z 0%Z cmp_Compare cmp_Compare_total_order
           example_tree 3%Z eq_refl example_tree_bst).
Defined.

Lemma insert_keeps_other_lookups_witness :
  exists t' prev existed,
    ReplaceOrInsert 0%Z example_tree 3%Z = Ok (t', prev, existed) /\
    forall y, cmp_Compare 3%Z y <> 0%Z -> Get 0%Z t' y = Get 0%Z example_tree y.
Proof.
  exact (@insert_keeps_other_lookups Z 0%Z cmp_Compare cmp_Compare_total_order
           example_tree 3%Z eq_refl example_tree_bst).
Defined.

Lemma example_tree_len_small : (- 2 ^ 63 < len example_tree < 2 ^ 63)%Z.
Proof. cbn. lia. Qed.

Lemma example_tree_present_4 : present cmp_Compare 4%Z (elements (root example_tree)).
Proof. exists 4%Z. split; [cbn; tauto|reflexivity]. Qed.

Lemma example_tree_absent_3 : absent cmp_Compare 3%Z (elements (root example_tree)).
Proof. cbn. repeat constructor; discriminate. Qed.

Lemma delete_present_witness :
  exists t' d,
    Delete 0%Z example_tree 4%Z = Ok (t', d, true) /\
    In d (elements (root example_tree)) /\ cmp_Compare 4%Z d = 0%Z /\
    removed d (elements (root example_tree)) (elements (root t')) /\
    Len t' = (Len example_tree - 1)%Z /\
    Get 0%Z t' 4%Z = Ok (0%Z, false).
Proof.
  exact (@delete_present Z 0%Z cmp_Compare cmp_Compare_total_order
           example_tree 4%Z eq_refl example_tree_well_formed example_tree_bst
           example_tree_len_small example_tree_present_4).
Defined.

Lemma delete_keeps_other_lookups_witness :
  exists t' d ok,
    Delete 0%Z example_tree 4%Z = Ok (t', d, ok) /\
    forall y, cmp_Compare 4%Z y <> 0%Z -> Get 0%Z t' y = Get 0%Z example_tree y.
Proof.
  exact (@delete_keeps_other_lookups Z 0%Z cmp_Compare cmp_Compare_total_order
           example_tree 4%Z eq_refl example_tree_well_formed example_tree_bst).
Defined.

Lemma delete_min_returns_minimum_witness :
  exists t' d ok,
    DeleteMin 0%Z example_tree = Ok (t', d, ok) /\
    (root example_tree <> Nil -> ok = true).
Proof.
  destruct (@delete_min_returns_minimum Z 0%Z cmp_Compare cmp_Compare_total_order
              example_tree example_tree_well_formed example_tree_bst
              example_tree_len_small) as (t' & d & ok & E & _ & H).
  exists t', d, ok. split; [exact E|]. intros Hn. apply (H Hn).
Defined.

Lemma delete_max_returns_maximum_witness :
  exists t' d ok,
    DeleteMax 0%Z example_tree = Ok (t', d, ok) /\
    (root example_tree <> Nil -> ok = true).
Proof.
  destruct (@delete_max_returns_maximum Z 0%Z cmp_Compare cmp_Compare_total_order
              example_tree example_tree_well_formed example_tree_bst
              example_tree_len_small) as (t' & d & ok & E & _ & H).
  exists t', d, ok. split; [exact E|]. intros Hn. apply (H Hn).
Defined.

Lemma repeated_delete_min_drains_witness :
  exists t,
    (t0 <- NewLLRBTree (Some cmp_Compare) ;;
     run 0%Z t0 [OpInsert 2%Z; OpInsert 1%Z]) = Ok t /\
    (size (root t) <= 3 ->
     exists t', run 0%Z t (repeat OpDeleteMin 3) = Ok t' /\
                root t' = Nil /\ Len t' = 0%Z /\
                DeleteMin 0%Z t' = Ok (t', 0%Z, false)).
Proof.
  exact (@repeated_delete_min_drains Z 0%Z cmp_Compare cmp_Compare_total_order
           [OpInsert 2%Z; OpInsert 1%Z] 3).
Defined.

Lemma insert_twice_witness :
  exists t1 prev existed t2,
    ReplaceOrInsert 0%Z example_tree 3%Z = Ok (t1, prev, existed) /\
    ReplaceOrInsert 0%Z t1 3%Z = Ok (t2, 3%Z, true) /\
    elements (root t2) = elements (root t1) /\ Len t2 = Len t1.
Proof.
  exact (@insert_twice Z 0%Z cmp_Compare cmp_Compare_total_order
           example_tree 3%Z eq_refl example_tree_bst).
Defined.

Lemma insert_then_delete_witness :
  exists t1 t2,
    ReplaceOrInsert 0%Z example_tree 3%Z = Ok (t1, 0%Z, false) /\
    Delete 0%Z t1 3%Z = Ok (t2, 3%Z, true) /\
    elements (root t2) = elements (root example_tree) /\
    Len t2 = Len example_tree.
Proof.
  refine (@insert_then_delete Z 0%Z cmp_Compare cmp_Compare_total_order
           example_tree 3%Z eq_refl example_tree_well_formed example_tree_bst
           _ example_tree_absent_3).
  cbn. lia.
Defined.

Lemma depth_is_logarithmic_witness :
  exists t,
    (t0 <- NewLLRBTree (Some cmp_Compare) ;;
     run 0%Z t0 [OpInsert 1%Z; OpInsert 2%Z; OpInsert 3%Z]) = Ok t /\
    maxDepth (root t) <= 2 * Nat.log2 (size (root t) + 1) /\
    2 ^ maxDepth (root t) <= (size (root t) + 1) ^ 2.
Proof.
  exact (@depth_is_logarithmic Z 0%Z cmp_Compare cmp_Compare_total_order
           [OpInsert 1%Z; OpInsert 2%Z; OpInsert 3%Z]).
Defined.

Lemma ascend_one_sided_witness :
  AscendLessThan 0%Z example_tree 4%Z (logging (fun _ _ => true)) [] =
  Ok (snd (run_iter (logging (fun _ _ => true))
             (filter (fun e => (cmp_Compare e 4 <? 0)%Z)
                     (elements (root example_tree))) [])).
Proof.
  exact (proj1 (@ascend_one_sided Z 0%Z cmp_Compare cmp_Compare_total_order
                  example_tree 4%Z eq_refl example_tree_bst) _ _ _).
Defined.

Lemma descend_one_sided_witness :
  DescendLessOrEqual 0%Z example_tree 4%Z (logging (fun _ _ => true)) [] =
  Ok (snd (run_iter (logging (fun _ _ => true))
             (rev (filter (fun e => (cmp_Compare e 4 <=? 0)%Z)
                          (elements (root example_tree)))) [])).
Proof.
  exact (proj1 (@descend_one_sided Z 0%Z cmp_Compare cmp_Compare_total_order
                  example_tree 4%Z eq_refl example_tree_bst) _ _ _).
Defined.

Lemma balance_primitives_keep_order_witness :
  elements (Node 2%Z (Node 1%Z Nil Nil true) (@Nil Z) false) =
    elements (Node 1%Z Nil (Node 2%Z Nil Nil true) false) /\
  size (Node 2%Z (Node 1%Z Nil Nil true) (@Nil Z) false) =
    size (Node 1%Z Nil (Node 2%Z Nil Nil true) false).
Proof.
  exact (@balance_primitives_keep_order Z
           (Node 1%Z Nil (Node 2%Z Nil Nil true) false)
           (Node 2%Z (Node 1%Z Nil Nil true) Nil false)
           (or_introl eq_refl)).
Defined.

Lemma insert_never_panics_witness :
  exists t' prev existed,
    ReplaceOrInsert 0%Z example_tree 3%Z = Ok (t', prev, existed) /\
    isRed (root t') = false /\ is_nil (root t') = false /\
    length (elements (root t')) =
      (if existed then length (elements (root example_tree))
       else S (length (elements (root example_tree)))).
Proof.
  exact (@insert_never_panics Z 0%Z example_tree cmp_Compare 3%Z eq_refl).
Defined.

Lemma has_iff_present_witness :
  (Has 0%Z example_tree 4%Z = Ok true <->
   present cmp_Compare 4%Z (elements (root example_tree))) /\
  (Has 0%Z example_tree 4%Z = Ok false <->
   absent cmp_Compare 4%Z (elements (root example_tree))).
Proof.
  exact (@has_iff_present Z 0%Z cmp_Compare cmp_Compare_total_order
           example_tree 4%Z eq_refl example_tree_bst).
Defined.

Lemma set_insert_reports_membership_witness :
  exists s' existed,
    LLRBSet_Insert 0%Z {| tr := example_tree |} 4%Z = Ok (s', existed) /\
    LLRBSet_Has 0%Z {| tr := example_tree |} 4%Z = Ok existed /\
    LLRBSet_Has 0%Z s' 4%Z = Ok true.
Proof.
  destruct (@set_insert_reports_membership Z 0%Z cmp_Compare
              cmp_Compare_total_order {| tr := example_tree |} 4%Z
              example_tree_inv) as (s' & e & H1 & _ & H2 & H3 & _).
  eauto.
Defined.

Lemma set_delete_reports_membership_witness :
  exists s' existed,
    LLRBSet_Delete 0%Z {| tr := example_tree |} 4%Z = Ok (s', existed) /\
    LLRBSet_Has 0%Z {| tr := example_tree |} 4%Z = Ok existed /\
    LLRBSet_Has 0%Z s' 4%Z = Ok false.
Proof.
  destruct (@set_delete_reports_membership Z 0%Z cmp_Compare
              cmp_Compare_total_order {| tr := example_tree |} 4%Z
              example_tree_inv) as (s' & e & H1 & _ & H2 & H3 & _).
  eauto.
Defined.

Lemma set_range_is_sorted_witness :
  exists l,
    LLRBSet_Range 0%Z {| tr := example_tree |} (logging (fun _ _ => true)) [] =
      Ok l /\
    increasing cmp_Compare l.
Proof.
  destruct (@set_range_is_sorted Z 0%Z cmp_Compare cmp_Compare_total_order
              {| tr := example_tree |} example_tree_inv) as (l & H1 & H2 & _).
  eauto.
Defined.
